(** * The auto-restart wrapper [run_bot_with_autorestart.py]

    The script is a supervising loop around one child process: launch the bot,
    wait for it, look at its exit status, pause and relaunch or stop.  This
    file embeds the script as an executable function over an explicit
    description of everything the script cannot control (what each child does,
    when Ctrl+C arrives, what the process environment holds), and proves the
    properties of the loop over that embedding.

    Conventions of the model.
    - Python integers are [Z]; strings are [string]; the dictionary [env] is a
      [gmap string string].
    - Exceptions are values of [exn]; a statement is a function from the
      program state to a result (normal or raised), a new state and the list
      of events it caused (module [Py]).
    - The blocking calls ([time.sleep] and [subprocess.run]) are the points at
      which a Ctrl+C is delivered; [print] always succeeds.
    - [sys.executable], the directory of the script and the operator [/] of
      [pathlib] belong to the surroundings of the script, not to the
      script. *)

From Stdlib Require Import ZArith Lia Ascii.
From stdpp Require Import base strings gmap list pretty.

#[local] Set Warnings "-clear-no-such-hyp".

Local Open Scope string_scope.
Local Open Scope list_scope.
Local Open Scope Z_scope.

(** ** What the script observes and what it does *)

(** The exceptions that matter to the script: [KeyboardInterrupt] and
    [SystemExit] derive from [BaseException] only, everything else that
    [subprocess.run] can raise derives from [Exception] and is represented by
    its description [str(e)]. *)
Inductive exn :=
  | KeyboardInterrupt
  | SystemExit (code : Z)
  | Exception (e : string).

(** How one call of [subprocess.run] ends when no signal disturbs it: the child
    ran and gave a return code, or spawning or waiting raised. *)
Inductive completion :=
  | Returncode (c : Z)
  | Fault (e : string).

(** The arguments of a call of [subprocess.run]. *)
Record launch := Launch {
  launch_args : list string;
  launch_cwd : string;
  launch_env : gmap string string
}.

(** The events of a run, in the order in which they happen.  [EvSleep n] is a
    call [time.sleep(n)] that ran to its end, [EvLaunch] the start of a call of
    [subprocess.run], [EvExit] and [EvFault] its two ways of ending, and
    [EvInterrupt] a Ctrl+C delivered during the blocking call in progress. *)
Inductive event :=
  | EvPrint (line : string)
  | EvSleep (seconds : Z)
  | EvLaunch (l : launch)
  | EvExit (returncode : Z)
  | EvFault (e : string)
  | EvInterrupt.

(** Everything outside the script.  Blocking calls are numbered from 0 in the
    order in which the script makes them, and so are the calls of
    [subprocess.run]. *)
Record world := World {
  (** [sys.executable] *)
  sys_executable : string;
  (** [str(Path(__file__).parent)] *)
  script_dir : string;
  (** the operator [/] of [pathlib] on the [str] of a path and a name:
      [path_div dir name] is [str(Path(dir) / name)] *)
  path_div : string -> string -> string;
  (** the contents of [os.environ] once [n] children have been run; index 0 is
      what the script finds when it starts *)
  os_environ : nat -> gmap string string;
  (** how the [n]-th call of [subprocess.run] ends if it is left alone *)
  child : nat -> completion;
  (** whether a Ctrl+C arrives during the [k]-th blocking call *)
  sigint : nat -> bool
}.

(** The variables of the script, and two counters that say where in the
    [world] the run has arrived. *)
Record state := State {
  restart_count : Z;
  env : gmap string string;
  blocked : nat;
  spawned : nat
}.

(** ** Statements *)

Module Py.

Inductive result (A : Type) :=
  | Normal (a : A)
  | Raise (x : exn).
Arguments Normal {A} a.
Arguments Raise {A} x.

Definition stmt (A : Type) : Type := state -> result A * state * list event.

Definition ret {A} (a : A) : stmt A := fun st => (Normal a, st, []).

Definition bind {A B} (m : stmt A) (f : A -> stmt B) : stmt B := fun st =>
  match m st with
  | (Normal a, st1, evs1) =>
      let '(r, st2, evs2) := f a st1 in (r, st2, evs1 ++ evs2)
  | (Raise x, st1, evs1) => (Raise x, st1, evs1)
  end.

Definition raise {A} (x : exn) : stmt A := fun st => (Raise x, st, []).

(** [try: body except ...: handler]: [handlers x] is the body of the first
    clause that matches [x], if there is one.  What a handler raises is not
    offered to the clauses of the same [try]. *)
Definition try_except {A} (body : stmt A) (handlers : exn -> option (stmt A))
  : stmt A := fun st =>
  match body st with
  | (Normal a, st1, evs1) => (Normal a, st1, evs1)
  | (Raise x, st1, evs1) =>
      match handlers x with
      | Some h => let '(r, st2, evs2) := h st1 in (r, st2, evs1 ++ evs2)
      | None => (Raise x, st1, evs1)
      end
  end.

Definition get : stmt state := fun st => (Normal st, st, []).
Definition put (st : state) : stmt unit := fun _ => (Normal tt, st, []).
Definition emit (evs : list event) : stmt unit := fun st => (Normal tt, st, evs).

End Py.
Import Py.

(** The statements form a monad; stdpp's notations [x ← m; k] and [m;; k]
    sequence them. *)
#[global] Instance stmt_ret : MRet stmt := @ret.
#[global] Instance stmt_bind : MBind stmt := fun A B f m => bind m f.

(** ** The library calls *)

Definition print (line : string) : stmt unit := emit [EvPrint line].

Definition sys_exit {A} (code : Z) : stmt A := raise (SystemExit code).

Definition next_blocking (st : state) : state :=
  State (restart_count st) (env st) (S (blocked st)) (spawned st).

Definition next_child (st : state) : state :=
  State (restart_count st) (env st) (S (blocked st)) (S (spawned st)).

Section Script.

Variable w : world.

Definition time_sleep (seconds : Z) : stmt unit := fun st =>
  if sigint w (blocked st)
  then (Raise KeyboardInterrupt, next_blocking st, [EvInterrupt])
  else (Normal tt, next_blocking st, [EvSleep seconds]).

(** [subprocess.run(args, cwd=cwd, env=env).returncode] *)
Definition subprocess_run (l : launch) : stmt Z := fun st =>
  if sigint w (blocked st)
  then (Raise KeyboardInterrupt, next_child st, [EvLaunch l; EvInterrupt])
  else match child w (spawned st) with
       | Returncode c => (Normal c, next_child st, [EvLaunch l; EvExit c])
       | Fault e => (Raise (Exception e), next_child st, [EvLaunch l; EvFault e])
       end.

End Script.

(** ** Strings of the script *)

Definition nl : string := String (Ascii.ascii_of_nat 10) EmptyString.

(** [s * n] on a Python string. *)
Fixpoint str_mul (s : string) (n : nat) : string :=
  match n with
  | O => EmptyString
  | S k => s +:+ str_mul s k
  end.

Fixpoint ends_with_slash (s : string) : bool :=
  match s with
  | EmptyString => false
  | String c EmptyString => Ascii.eqb c "/"%char
  | String _ s' => ends_with_slash s'
  end.

(** What [pathlib] does on a POSIX system, for [dir] the [str] of a path and
    [name] one relative component: the current directory [.] disappears, a
    root keeps its slash, any other directory gets one slash.  The scenarios
    use it as their [path_div]. *)
Definition posix_join (dir name : string) : string :=
  if String.eqb dir "." then name
  else if ends_with_slash dir then dir +:+ name
  else dir +:+ "/" +:+ name.

Definition rule : string := str_mul "=" 80.

Definition msg_restarting (restart_count : Z) : string :=
  "🔄 RESTARTING BOT (restart #" +:+ pretty restart_count +:+ ")".

Definition msg_clean_exit : string :=
  nl +:+ "✅ Bot exited cleanly (exit code 0). Stopping auto-restart.".

Definition msg_exited (exit_code : Z) : string :=
  nl +:+ "🔄 Bot exited with code " +:+ pretty exit_code +:+ ". Restarting...".

Definition msg_waiting : string := "   (Waiting 3 seconds before restart...)".

Definition msg_ctrl_c : string :=
  nl +:+ nl +:+ "🛑 Ctrl+C detected. Stopping bot and auto-restart wrapper.".

Definition msg_error (e : string) : string :=
  nl +:+ "❌ Error running bot: " +:+ e.

Definition msg_retrying : string := "Retrying in 10 seconds...".

Definition MARKER : string := "BOT_AUTO_RESTART".

(** ** The script *)

(** How the body of the [while True] loop hands control back: [break],
    or [continue] (reaching the end of the body does the same). *)
Inductive flow := Break | Continue.

(** What has become of the process: still in the loop, ended with an exit
    status, or killed by an exception nobody caught. *)
Inductive outcome :=
  | Looping
  | Exited (status : Z)
  | Traceback (x : exn).

Definition set_restart_count (n : Z) (st : state) : state :=
  State n (env st) (blocked st) (spawned st).

Section Supervisor.

Variable w : world.

Definition SCRIPT_DIR : string := script_dir w.
Definition BOT_SCRIPT : string := path_div w (path_div w SCRIPT_DIR "BOT") "app_20.py".

Definition banner : list string :=
  [ rule;
    "🔄 BOT AUTO-RESTART WRAPPER";
    rule;
    "Bot script: " +:+ BOT_SCRIPT;
    "This will automatically restart the bot when it exits.";
    "Press Ctrl+C to stop completely.";
    rule;
    EmptyString ].

(** Lines 15 to 29: the banner, [restart_count = 0], and [env], the copy of
    [os.environ] with the marker added. *)
Definition startup : state * list event :=
  (State 0 (<[MARKER := "1"]> (os_environ w 0)) 0 0, EvPrint <$> banner).

(** The environment given to the children, and the call it is given in. *)
Definition overlay : gmap string string := (startup.1).(env).
Definition launch0 : launch :=
  Launch [sys_executable w; BOT_SCRIPT] SCRIPT_DIR overlay.

(** Lines 33 to 62, the body of the [try]. *)
Definition try_body : stmt flow :=
  st ← get;
  put (set_restart_count (restart_count st + 1) st);;
  st ← get;
  (if restart_count st >? 1
   then print (nl +:+ rule);;
        print (msg_restarting (restart_count st));;
        print (rule +:+ nl);;
        time_sleep w 2
   else mret tt);;
  st ← get;
  exit_code ← subprocess_run w
    (Launch [sys_executable w; BOT_SCRIPT] SCRIPT_DIR (env st));
  if exit_code =? 0
  then print msg_clean_exit;;
       mret Break
  else print (msg_exited exit_code);;
       (if negb (exit_code =? 1)
        then print msg_waiting;;
             time_sleep w 3
        else mret tt);;
       mret Continue.

(** Lines 64 to 70, the two [except] clauses. *)
Definition handlers (x : exn) : option (stmt flow) :=
  match x with
  | KeyboardInterrupt =>
      Some (print msg_ctrl_c;;
            sys_exit 0)
  | Exception e =>
      Some (print (msg_error e);;
            print msg_retrying;;
            time_sleep w 10;;
            mret Continue)
  | SystemExit _ => None
  end.

Definition loop_body : stmt flow := try_except try_body handlers.

(** What the interpreter does with the way the loop body ended: after
    [break] the script is over and the process exits with status 0,
    [SystemExit] ends it with its code, any other exception that leaves the
    loop ends it with a traceback. *)
Definition after_body (r : result flow) : outcome :=
  match r with
  | Normal Continue => Looping
  | Normal Break => Exited 0
  | Raise (SystemExit code) => Exited code
  | Raise x => Traceback x
  end.

(** The script up to the end of the [n]-th turn of the loop: what has become
    of the process, its variables, and everything that has happened. *)
Fixpoint run (n : nat) : outcome * state * list event :=
  match n with
  | O => let '(st, evs) := startup in (Looping, st, evs)
  | S k =>
      let '(o, st, tr) := run k in
      match o with
      | Looping =>
          let '(r, st', evs) := loop_body st in (after_body r, st', tr ++ evs)
      | _ => (o, st, tr)
      end
  end.

Definition outcome_of (n : nat) : outcome := (run n).1.1.
Definition state_of (n : nat) : state := (run n).1.2.
Definition trace_of (n : nat) : list event := (run n).2.

End Supervisor.

(** ** Reading a trace *)

Definition is_launch (e : event) : bool :=
  match e with EvLaunch _ => true | _ => false end.

(** The calls of [subprocess.run] in a trace, in order. *)
Definition launches (tr : list event) : list launch :=
  omap (fun e => match e with EvLaunch l => Some l | _ => None end) tr.

(** The completed sleeps in a trace, in order. *)
Definition delays (tr : list event) : list Z :=
  omap (fun e => match e with EvSleep n => Some n | _ => None end) tr.

(** The lines printed in a trace, in order. *)
Definition printed (tr : list event) : list string :=
  omap (fun e => match e with EvPrint s => Some s | _ => None end) tr.

Definition total_delay (tr : list event) : Z := foldr Z.add 0 (delays tr).

(** The number of blocking calls that the script has made in a stretch of a
    run in which no Ctrl+C arrived: one for every sleep and one for every
    launch.  As blocking calls are numbered from 0, this is also the number of
    the blocking call that comes next. *)
Definition calls (tr : list event) : nat :=
  (length (delays tr) + length (launches tr))%nat.

(** The two events that carry the verdict on a launch. *)
Definition is_verdict (e : event) : bool :=
  match e with EvExit _ | EvFault _ => true | _ => false end.

(** What the turn still does after a non-zero status has been read or a fault
    has been caught, when nothing interrupts it. *)
Definition aftermath (x : event) : list event :=
  match x with
  | EvExit c =>
      EvPrint (msg_exited c) ::
      (if c =? 1 then [] else [EvPrint msg_waiting; EvSleep 3])
  | EvFault e => [EvPrint (msg_error e); EvPrint msg_retrying; EvSleep 10]
  | _ => []
  end.

(** ** One turn of the loop, case by case *)

Section Turn.

Variable w : world.

(** The call of [subprocess.run] made from state [st]. *)
Definition the_launch (st : state) : launch :=
  Launch [sys_executable w; BOT_SCRIPT w] (SCRIPT_DIR w) (env st).

(** The three lines printed before a restart. *)
Definition notice (rc : Z) : list event :=
  [EvPrint (nl +:+ rule); EvPrint (msg_restarting rc); EvPrint (rule +:+ nl)].

(** What a turn does before it launches, when nothing interrupts it. *)
Definition pause (rc : Z) : list event :=
  if rc >? 1 then notice rc ++ [EvSleep 2] else [].

(** The number of the blocking call in which the turn that starts in state
    [st] calls [subprocess.run]: the 2-second pause, when it is taken, is one
    blocking call before it. *)
Definition launch_call (st : state) : nat :=
  if restart_count st + 1 >? 1 then S (blocked st) else blocked st.

(** The ways in which a turn can go on once [subprocess.run] has been
    called from state [st]. *)
Inductive ending (st : state) : result flow -> list event -> Prop :=
  | end_interrupted :
      sigint w (launch_call st) = true ->
      ending st (Raise (SystemExit 0)) [EvInterrupt; EvPrint msg_ctrl_c]
  | end_clean :
      child w (spawned st) = Returncode 0 ->
      ending st (Normal Break) [EvExit 0; EvPrint msg_clean_exit]
  | end_requested :
      child w (spawned st) = Returncode 1 ->
      ending st (Normal Continue) [EvExit 1; EvPrint (msg_exited 1)]
  | end_crash c :
      child w (spawned st) = Returncode c -> c <> 0 -> c <> 1 ->
      ending st (Normal Continue)
        [EvExit c; EvPrint (msg_exited c); EvPrint msg_waiting; EvSleep 3]
  | end_crash_interrupted c :
      child w (spawned st) = Returncode c -> c <> 0 -> c <> 1 ->
      sigint w (S (launch_call st)) = true ->
      ending st (Raise (SystemExit 0))
        [EvExit c; EvPrint (msg_exited c); EvPrint msg_waiting;
         EvInterrupt; EvPrint msg_ctrl_c]
  | end_fault e :
      child w (spawned st) = Fault e ->
      ending st (Normal Continue)
        [EvFault e; EvPrint (msg_error e); EvPrint msg_retrying; EvSleep 10]
  | end_fault_interrupted e :
      child w (spawned st) = Fault e ->
      sigint w (S (launch_call st)) = true ->
      ending st (Raise KeyboardInterrupt)
        [EvFault e; EvPrint (msg_error e); EvPrint msg_retrying; EvInterrupt].

Inductive turn (st : state) : result flow -> list event -> Prop :=
  | turn_pause_interrupted :
      sigint w (blocked st) = true ->
      restart_count st + 1 > 1 ->
      turn st (Raise (SystemExit 0))
        (notice (restart_count st + 1) ++ [EvInterrupt; EvPrint msg_ctrl_c])
  | turn_launch r tail :
      ending st r tail ->
      turn st r (pause (restart_count st + 1) ++ EvLaunch (the_launch st) :: tail).

(** The ways in which the process comes to its end. *)
Inductive stopped : outcome -> list event -> Prop :=
  | stopped_clean pre :
      EvInterrupt ∉ pre -> EvExit 0 ∉ pre ->
      stopped (Exited 0) (pre ++ [EvExit 0; EvPrint msg_clean_exit])
  | stopped_ctrl_c pre :
      EvInterrupt ∉ pre -> EvExit 0 ∉ pre ->
      stopped (Exited 0) (pre ++ [EvInterrupt; EvPrint msg_ctrl_c])
  | stopped_uncaught pre e :
      EvInterrupt ∉ pre -> EvExit 0 ∉ pre ->
      stopped (Traceback KeyboardInterrupt)
        (pre ++ [EvFault e; EvPrint (msg_error e); EvPrint msg_retrying; EvInterrupt]).

End Turn.

(** The events between a verdict that asks for a restart and the launch of
    the next turn, when nothing interrupts the script. *)
Definition gap (x : event) (rc : Z) : list event :=
  aftermath x ++ notice rc ++ [EvSleep 2].

(** The line or lines with which the script reports a verdict: right after
    reading the return code, or first thing in the [except Exception]
    clause. *)
Definition report (x : event) : list event :=
  match x with
  | EvExit c => [EvPrint (if c =? 0 then msg_clean_exit else msg_exited c)]
  | EvFault e => [EvPrint (msg_error e); EvPrint msg_retrying]
  | _ => []
  end.

(** ** The properties that do not hold as they were written down *)

(** A relaunch after exit status 1 without any pause of 2 seconds or more
    between reading the status and the launch. *)
Definition relaunch_without_pause (w : world) (n : nat) : Prop :=
  forall pre mid l post,
    trace_of w n = pre ++ EvExit 1 :: mid ++ EvLaunch l :: post ->
    launches mid = [] ->
    Forall (fun d => d < 2) (delays mid).

(** A verdict [x] that is followed by a relaunch sooner or later, however the
    run goes on. *)
Definition relaunch_follows (x : event) (w : world) (n : nat) : Prop :=
  forall pre suf,
    trace_of w n = pre ++ x :: suf ->
    exists m mid l rest,
      trace_of w m = pre ++ x :: mid ++ EvLaunch l :: rest /\ launches mid = [].

(** An overlay derived again for every launch: the child launched when [i]
    children have been run gets what [os.environ] holds at that moment, plus
    the marker. *)
Definition fresh_overlay (w : world) (i : nat) : gmap string string :=
  <[MARKER := "1"]> (os_environ w i).

Definition overlay_recomputed (w : world) (n : nat) : Prop :=
  forall i l,
    launches (trace_of w n) !! i = Some l -> launch_env l = fresh_overlay w i.




(** ** Scenarios *)

Definition quiet : nat -> bool := fun _ => false.

Definition steady : nat -> gmap string string := fun _ => {["HOME" := "/root"]}.

(** The children exit with the codes of [codes] in turn, then with 0. *)
Definition exits (codes : list Z) : nat -> completion :=
  fun n => Returncode (nth n codes 0).

(** The first child exits with 0. *)
Definition w_A : world := World "python3" "/srv" posix_join steady (exits []) quiet.

(** The children exit with 1, 1 and 0. *)
Definition w_B : world := World "python3" "/srv" posix_join steady (exits [1; 1; 0]) quiet.

(** The children exit with 137, 137 and 0. *)
Definition w_C : world := World "python3" "/srv" posix_join steady (exits [137; 137; 0]) quiet.

(** Every child asks for a restart, and nobody presses Ctrl+C. *)
Definition w_forever : world :=
  World "python3" "/srv" posix_join steady (fun _ => Returncode 1) quiet.

Definition no_interpreter : string := "[Errno 2] No such file or directory: 'python3'".

(** The first launch fails, the second child exits with 0. *)
Definition w_fault : world :=
  World "python3" "/srv" posix_join steady
    (fun n => match n with O => Fault no_interpreter | _ => Returncode 0 end) quiet.

(** The first launch fails, and Ctrl+C arrives during the second blocking call,
    which is the [time.sleep(10)] of the [except Exception] clause. *)
Definition w_fault_ctrl_c : world :=
  World "python3" "/srv" posix_join steady
    (fun n => match n with O => Fault no_interpreter | _ => Returncode 0 end)
    (fun k => Nat.eqb k 1).

(** The first child exits with 137, and Ctrl+C arrives during the second
    blocking call, which is the [time.sleep(3)] of the crash path. *)
Definition w_crash_ctrl_c : world :=
  World "python3" "/srv" posix_join steady (exits [137]) (fun k => Nat.eqb k 1).

(** The first child exits with 1, and Ctrl+C arrives during the second
    blocking call, which is the [time.sleep(2)] before the restart. *)
Definition w_restart_ctrl_c : world :=
  World "python3" "/srv" posix_join steady (exits [1]) (fun k => Nat.eqb k 1).

(** The first launch fails, the 10 seconds of the [except Exception] clause
    pass, and Ctrl+C arrives during the third blocking call, which is the
    [time.sleep(2)] before the restart. *)
Definition w_fault_pause_ctrl_c : world :=
  World "python3" "/srv" posix_join steady
    (fun n => match n with O => Fault no_interpreter | _ => Returncode 0 end)
    (fun k => Nat.eqb k 2).

(** [TZ] is set in the environment of the script while the first child runs;
    the children exit with 1 and 0. *)
Definition w_env : world :=
  World "python3" "/srv" posix_join
    (fun n => match n with
              | O => {["HOME" := "/root"]}
              | _ => {["HOME" := "/root"; "TZ" := "UTC"]}
              end)
    (exits [1; 0]) quiet.

(** ** Splitting lists at an element *)

Section Splitting.

Context {A : Type}.
Implicit Types (x y : A) (l m pre suf : list A).

(** An element of [l ++ s] lies in [l] or in [s]. *)
Lemma app_eq_app_cons l s pre x suf :
  l ++ s = pre ++ x :: suf ->
  (exists m, l = pre ++ x :: m /\ suf = m ++ s) \/
  (exists m, pre = l ++ m /\ s = m ++ x :: suf).
Proof.
  revert pre. induction l as [|y l IH]; intros pre H.
  - right. by exists pre.
  - destruct pre as [|z pre]; cbn in H; injection H as -> H.
    + left. by exists l.
    + destruct (IH _ H) as [(m & -> & ->)|(m & -> & ->)].
      * left. by exists m.
      * right. by exists m.
Qed.

(** A list has one splitting at the first element that satisfies [P]. *)
Lemma first_split (P : A -> bool) l y t m x suf :
  l ++ y :: t = m ++ x :: suf ->
  Forall (fun e => P e = false) l -> Forall (fun e => P e = false) m ->
  P y = true -> P x = true ->
  m = l /\ x = y /\ suf = t.
Proof.
  revert m. induction l as [|z l IH]; intros m H Hl Hm Hy Hx.
  - destruct m as [|z m]; cbn in H; injection H as -> H; [done|].
    apply Forall_cons in Hm as [? _]. congruence.
  - apply Forall_cons in Hl as [Hz Hl].
    destruct m as [|z' m]; cbn in H; injection H as -> H; [congruence|].
    apply Forall_cons in Hm as [_ Hm].
    destruct (IH _ H Hl Hm Hy Hx) as (-> & -> & ->). done.
Qed.

(** A list with one element that satisfies [P] splits there only. *)
Lemma only_split (P : A -> bool) l y t m x suf :
  l ++ y :: t = m ++ x :: suf ->
  Forall (fun e => P e = false) l -> Forall (fun e => P e = false) t ->
  P x = true ->
  m = l /\ x = y /\ suf = t.
Proof.
  revert m. induction l as [|z l IH]; intros m H Hl Ht Hx.
  - destruct m as [|z m]; cbn in H; injection H as -> H; [done|].
    subst t. apply Forall_app in Ht as [_ [? _]%Forall_cons]. congruence.
  - apply Forall_cons in Hl as [Hz Hl].
    destruct m as [|z' m]; cbn in H; injection H as -> H; [congruence|].
    destruct (IH _ H Hl Ht Hx) as (-> & -> & ->). done.
Qed.

End Splitting.

#[local] Ltac unfold_stmt :=
  unfold mbind, stmt_bind, bind, mret, stmt_ret, ret, get, put, print, emit,
    sys_exit, raise, time_sleep, subprocess_run;
  cbn -[msg_restarting msg_exited msg_clean_exit msg_ctrl_c msg_error
        msg_waiting msg_retrying rule nl String.append Z.add Z.gtb Z.eqb].

#[local] Ltac unfold_stmt_in H :=
  cbn -[msg_restarting msg_exited msg_clean_exit msg_ctrl_c msg_error
        msg_waiting msg_retrying rule nl String.append Z.add Z.gtb Z.eqb] in H.

#[local] Ltac split_body w H :=
  repeat (unfold_stmt_in H;
    match type of H with
    | context [if sigint w ?k then _ else _] => destruct (sigint w k) eqn:?
    | context [match child w ?n with _ => _ end] => destruct (child w n) eqn:?
    | context [if ?c =? 0 then _ else _] => destruct (c =? 0) eqn:?
    | context [if negb (?c =? 1) then _ else _] => destruct (c =? 1) eqn:?
    end);
  unfold_stmt_in H.


(** Membership in a list that is written out. *)
#[local] Ltac elem_of_explicit :=
  cbn [fmap list_fmap app];
  rewrite ?elem_of_app, ?elem_of_cons, ?elem_of_nil;
  naive_solver.

Lemma launches_pause rc : launches (pause rc) = [].
Proof. unfold pause. by case_match. Qed.

Lemma elem_of_pause e rc : e ∈ pause rc -> (exists s, e = EvPrint s) \/ e = EvSleep 2.
Proof. unfold pause, notice. case_match; elem_of_explicit. Qed.

#[local] Ltac solve_notin :=
  let Hin := fresh "Hin" in
  intros Hin;
  rewrite ?elem_of_app, ?elem_of_cons, ?elem_of_nil in Hin;
  repeat match goal with
    | H : _ \/ _ |- _ => destruct H
    | H : _ ∈ pause _ |- _ => apply elem_of_pause in H as [[]|]
    end;
  first [done | congruence].

Lemma pause_no_verdict rc : Forall (fun e => is_verdict e = false) (pause rc).
Proof. unfold pause, notice. case_match; repeat constructor. Qed.

Section TurnFacts.

Variable w : world.

Lemma loop_body_turn st r st' evs :
  loop_body w st = (r, st', evs) ->
  turn w st r evs /\
  restart_count st' = restart_count st + 1 /\
  env st' = env st /\
  (launches evs <> [] -> spawned st' = S (spawned st)).
Proof.
  unfold loop_body, try_except, try_body, handlers.
  unfold_stmt. intros H.
  pose proof (turn_launch w st) as T. unfold pause, the_launch, notice in T.
  pose proof (eq_refl : launch_call st =
                if restart_count st + 1 >? 1 then S (blocked st) else blocked st)
    as Hcall.
  destruct (restart_count st + 1 >? 1) eqn:Hrc; split_body w H; simplify_eq.
  all: repeat match goal with
         | H : (_ =? _) = true |- _ => apply Z.eqb_eq in H; subst
         | H : (_ =? _) = false |- _ => apply Z.eqb_neq in H
         | H : (_ >? _) = true |- _ => apply Z.gtb_gt in H
         end.
  all: (split; [|by unfold launches]).
  all: try (eapply turn_pause_interrupted; by eauto).
  all: cbn [app] in T; apply T; econstructor; rewrite ?Hcall; by eauto.
Qed.

(** A turn that reads a non-zero status or catches a fault goes through its
    [aftermath] and leaves the loop running, unless a Ctrl+C ends it. *)
Lemma turn_verdict st r evs m x suf :
  turn w st r evs -> evs = m ++ x :: suf ->
  is_verdict x = true -> x <> EvExit 0 ->
  (r = Normal Continue /\ suf = aftermath x) \/
  (after_body r <> Looping /\ EvInterrupt ∈ suf /\ launches suf = []).
Proof.
  intros Ht Hevs Hx Hx0. destruct Ht as [Hk Hrc|r tail He].
  - assert (x ∈ notice (restart_count st + 1) ++ [EvInterrupt; EvPrint msg_ctrl_c])
      as Hin by (rewrite Hevs; elem_of_explicit).
    unfold notice in Hin. rewrite elem_of_app, !elem_of_cons, !elem_of_nil in Hin.
    destruct_or!; by subst.
  - assert (forall y t, tail = y :: t ->
              Forall (fun e => is_verdict e = false) t ->
              x = y /\ suf = t) as Hsplit.
    { intros y t -> Ht.
      replace (pause (restart_count st + 1) ++ EvLaunch (the_launch w st) :: y :: t)
        with ((pause (restart_count st + 1) ++ [EvLaunch (the_launch w st)]) ++ y :: t)
        in Hevs by (by rewrite <- app_assoc).
      eapply only_split in Hevs as (_ & ? & ?); [done| |done|done].
      apply Forall_app. split; [apply pause_no_verdict|by repeat constructor]. }
    destruct He;
      (destruct (Hsplit _ _ eq_refl) as [-> ->]; [by repeat constructor|]);
      try (cbn in Hx; congruence).
    + left. split; reflexivity.
    + left. split; [done|]. cbn [aftermath]. by destruct (Z.eqb_spec c 1).
    + right. split; [done|]. split; [elem_of_explicit|done].
    + left. split; reflexivity.
    + right. split; [done|]. split; [elem_of_explicit|done].
Qed.

(** From the second turn on, a turn sleeps 2 seconds and launches, unless a
    Ctrl+C ends it before. *)
Lemma turn_relaunch st r evs :
  turn w st r evs -> restart_count st >= 1 ->
  (exists rest,
     evs = notice (restart_count st + 1) ++
           EvSleep 2 :: EvLaunch (the_launch w st) :: rest) \/
  (after_body r <> Looping /\ EvInterrupt ∈ evs /\ launches evs = []).
Proof.
  intros Ht Hrc. destruct Ht as [Hk _|r tail He].
  - right. split; [done|]. unfold notice. split; [elem_of_explicit|done].
  - left. exists tail. unfold pause.
    destruct (Z.gtb_spec (restart_count st + 1) 1); [|lia].
    by rewrite <- app_assoc.
Qed.

End TurnFacts.

(** ** Facts about runs *)

Section RunFacts.

Variable w : world.

Lemma run_0 : run w 0 = (Looping, (startup w).1, EvPrint <$> banner w).
Proof. done. Qed.

Lemma run_S_over n o st tr :
  run w n = (o, st, tr) -> o <> Looping -> run w (S n) = (o, st, tr).
Proof. intros H Ho. cbn [run]. rewrite H. by destruct o. Qed.

Lemma run_over_stable n m o st tr :
  run w n = (o, st, tr) -> o <> Looping -> (n <= m)%nat -> run w m = (o, st, tr).
Proof.
  intros H Ho Hle. induction Hle as [|m Hle IH]; [done|].
  by apply run_S_over.
Qed.

(** The step from [n] turns to [n + 1] turns. *)
Lemma run_S_looping n st tr :
  run w n = (Looping, st, tr) ->
  exists r st' evs,
    run w (S n) = (after_body r, st', tr ++ evs) /\
    turn w st r evs /\
    restart_count st' = restart_count st + 1 /\
    env st' = env st /\
    (launches evs <> [] -> spawned st' = S (spawned st)).
Proof.
  intros H. cbn [run]. rewrite H.
  destruct (loop_body w st) as [[r st'] evs] eqn:Hb.
  exists r, st', evs. split; [done|]. by apply loop_body_turn.
Qed.

Lemma trace_of_S n : exists evs, trace_of w (S n) = trace_of w n ++ evs.
Proof.
  unfold trace_of. destruct (run w n) as [[o st] tr] eqn:H.
  destruct o.
  - destruct (run_S_looping _ _ _ H) as (r & st' & evs & -> & _). by exists evs.
  - rewrite (run_S_over _ _ _ _ H); [|done]. exists []. by rewrite app_nil_r.
  - rewrite (run_S_over _ _ _ _ H); [|done]. exists []. by rewrite app_nil_r.
Qed.

Lemma trace_of_le n m :
  (n <= m)%nat -> exists evs, trace_of w m = trace_of w n ++ evs.
Proof.
  intros Hle. induction Hle as [|m Hle [evs IH]].
  - exists []. by rewrite app_nil_r.
  - destruct (trace_of_S m) as [evs' ->]. rewrite IH.
    exists (evs ++ evs'). by rewrite app_assoc.
Qed.

Lemma launches_app tr1 tr2 : launches (tr1 ++ tr2) = launches tr1 ++ launches tr2.
Proof. apply omap_app. Qed.

Lemma launches_launch l tr : launches (EvLaunch l :: tr) = l :: launches tr.
Proof. done. Qed.

Lemma launches_banner : launches (EvPrint <$> banner w) = [].
Proof. done. Qed.

(** What holds whenever the loop is about to start another turn. *)
Lemma looping_inv n st tr :
  run w n = (Looping, st, tr) ->
  restart_count st = Z.of_nat n /\
  env st = overlay w /\
  spawned st = n /\
  (EvInterrupt ∉ tr) /\
  (EvExit 0 ∉ tr) /\
  launches tr = replicate n (launch0 w).
Proof.
  revert st tr. induction n as [|n IH]; intros st tr H.
  - cbn in H. simplify_eq. repeat split; try done.
    + unfold banner. elem_of_explicit.
    + unfold banner. elem_of_explicit.
  - destruct (run w n) as [[o st0] tr0] eqn:Hn.
    destruct o; try (rewrite (run_S_over _ _ _ _ Hn) in H; done).
    destruct (IH _ _ eq_refl) as (Hrc & Henv & Hsp & Hint & Hex & Hl).
    destruct (run_S_looping _ _ _ Hn) as (r & st' & evs & HS & Ht & Hrc' & Henv' & Hsp').
    rewrite HS in H. injection H as Hr -> <-.
    destruct Ht as [|r tail He]; [done|].
    assert (launches tail = []) as Htl by (by destruct He).
    assert (EvInterrupt ∉ tail) as Hti by (destruct He; try done; elem_of_explicit).
    assert (EvExit 0 ∉ tail) as Hte by (destruct He; try done; elem_of_explicit).
    rewrite !launches_app, launches_pause, launches_launch, Htl, Hl in *.
    cbn [app] in *.
    split; [lia|]. split; [congruence|]. split; [rewrite Hsp'; [lia|done]|].
    split; [|split].
    + intros Hin. rewrite !elem_of_app, elem_of_cons in Hin.
      destruct Hin as [?|[[[]|]%elem_of_pause|[|]]]; done.
    + intros Hin. rewrite !elem_of_app, elem_of_cons in Hin.
      destruct Hin as [?|[[[]|]%elem_of_pause|[|]]]; done.
    + unfold the_launch. rewrite Henv. symmetry. apply replicate_S_end.
Qed.

Lemma stopped_eq o tr tr' : stopped o tr' -> tr = tr' -> stopped o tr.
Proof. by intros ? ->. Qed.

Lemma over_inv n o st tr :
  run w n = (o, st, tr) -> o <> Looping -> stopped o tr.
Proof.
  revert o st tr. induction n as [|n IH]; intros o st tr H Ho.
  - cbn in H. by simplify_eq.
  - destruct (run w n) as [[o0 st0] tr0] eqn:Hn.
    assert (o0 = Looping \/ o0 <> Looping) as [->|Ho0]
      by (destruct o0; auto).
    2: { rewrite (run_S_over _ _ _ _ Hn Ho0) in H. simplify_eq. by eapply IH. }
    destruct (looping_inv _ _ _ Hn) as (_ & _ & _ & Hint & Hex & _).
    destruct (run_S_looping _ _ _ Hn) as (r & st' & evs & HS & Ht & _).
    rewrite HS in H. injection H as <- -> <-.
    destruct Ht as [|r tail He].
    + rewrite app_assoc. apply stopped_ctrl_c; unfold notice; solve_notin.
    + set (rc := restart_count st0 + 1). set (l := the_launch w st0).
      destruct He; try done; cbn [after_body].
      * eapply stopped_eq;
          [apply (stopped_ctrl_c (tr0 ++ pause rc ++ [EvLaunch l])); solve_notin
          |by rewrite <- !app_assoc].
      * eapply stopped_eq;
          [apply (stopped_clean (tr0 ++ pause rc ++ [EvLaunch l])); solve_notin
          |by rewrite <- !app_assoc].
      * eapply stopped_eq;
          [apply (stopped_ctrl_c
             (tr0 ++ pause rc ++
              [EvLaunch l; EvExit c; EvPrint (msg_exited c); EvPrint msg_waiting]));
           solve_notin
          |by rewrite <- !app_assoc].
      * eapply stopped_eq;
          [apply (stopped_uncaught (tr0 ++ pause rc ++ [EvLaunch l]) e); solve_notin
          |by rewrite <- !app_assoc].
Qed.

Lemma launches_aftermath x : launches (aftermath x) = [].
Proof. destruct x; try done. cbn. by case_match. Qed.

Lemma launches_notice rc : launches (notice rc) = [].
Proof. done. Qed.

Lemma interrupt_over n : EvInterrupt ∈ trace_of w n -> outcome_of w n <> Looping.
Proof.
  unfold trace_of, outcome_of. destruct (run w n) as [[o st] tr] eqn:Hn.
  cbn. intros Hin ->. by destruct (looping_inv _ _ _ Hn) as (_ & _ & _ & ? & _).
Qed.

Lemma run_S_over' n : outcome_of w n <> Looping -> run w (S n) = run w n.
Proof.
  unfold outcome_of. destruct (run w n) as [[o st] tr] eqn:Hn. cbn.
  intros Ho. by apply run_S_over.
Qed.

(** After a non-zero exit status or a fault, the next thing that happens to
    the child is a relaunch behind the 2-second pause, unless a Ctrl+C comes
    first. *)
Lemma relaunch_or_interrupt n pre x suf :
  trace_of w n = pre ++ x :: suf ->
  is_verdict x = true -> x <> EvExit 0 ->
  exists suf',
    trace_of w (S n) = pre ++ x :: suf' /\
    ((exists rc l rest,
        suf' = aftermath x ++ notice rc ++ EvSleep 2 :: EvLaunch l :: rest) \/
     (EvInterrupt ∈ suf' /\ launches suf' = [])).
Proof.
  intros H Hx Hx0. revert pre suf H. induction n as [|n IH]; intros pre suf H.
  - assert (x ∈ EvPrint <$> banner w) as Hin
      by (change (EvPrint <$> banner w) with (trace_of w 0); rewrite H; elem_of_explicit).
    apply list_elem_of_fmap in Hin as (? & -> & _). done.
  - destruct (run w n) as [[o0 st0] tr0] eqn:Hn.
    assert (o0 = Looping \/ o0 <> Looping) as [->|Ho0] by (destruct o0; auto).
    2: { assert (run w (S n) = run w n) as E1
           by (apply run_S_over'; unfold outcome_of; by rewrite Hn).
         assert (run w (S (S n)) = run w (S n)) as E2
           by (apply run_S_over'; unfold outcome_of; by rewrite E1, Hn).
         unfold trace_of in *. rewrite E2, E1. rewrite E1 in H.
         destruct (IH _ _ H) as (suf' & E & Hcases). rewrite E1 in E. eauto. }
    destruct (run_S_looping _ _ _ Hn) as (r & st' & evs & HS & Ht & Hrc' & _).
    assert (trace_of w n = tr0) as Htr0 by (unfold trace_of; by rewrite Hn).
    assert (trace_of w (S n) = tr0 ++ evs) as Htr1 by (unfold trace_of; by rewrite HS).
    rewrite Htr1 in H.
    destruct (trace_of_S (S n)) as [evs2 Htr2]. rewrite Htr1 in Htr2.
    apply app_eq_app_cons in H as [(m & Hm & ->)|(m & -> & Hm)].
    + rewrite Htr0 in IH. destruct (IH _ _ Hm) as (suf0 & E & Hcases).
      rewrite Htr1, Hm in E. rewrite <- app_assoc in E.
      apply app_inv_head in E. injection E as <-.
      destruct Hcases as [(rc & l & rest & Hsuf)|[Hin Hl]].
      * exists ((m ++ evs) ++ evs2). split.
        { rewrite Htr2, Hm. by rewrite <- !app_assoc. }
        left. exists rc, l, (rest ++ evs2). rewrite Hsuf.
        by rewrite <- !app_assoc.
      * exists (m ++ evs). split; [|by right].
        unfold trace_of. rewrite run_S_over'.
        { fold (trace_of w (S n)). rewrite Htr1, Hm. by rewrite <- !app_assoc. }
        apply interrupt_over. rewrite Htr1, Hm.
        rewrite elem_of_app in Hin. rewrite !elem_of_app, elem_of_cons. tauto.
    + destruct (turn_verdict _ _ _ _ _ _ _ Ht Hm Hx Hx0)
        as [[-> ->]|(Hr & Hin & Hl)].
      * change (after_body (Normal Continue)) with Looping in HS.
        destruct (looping_inv _ _ _ HS) as (Hrc1 & _).
        destruct (run_S_looping _ _ _ HS) as (r2 & st2 & evs2' & HS2 & Ht2 & _).
        assert (evs2' = evs2) as ->.
        { unfold trace_of in Htr2. rewrite HS2 in Htr2. cbn in Htr2.
          by apply app_inv_head in Htr2. }
        exists (aftermath x ++ evs2). split.
        { rewrite Htr2, Hm. by rewrite <- !app_assoc. }
        destruct (turn_relaunch _ _ _ _ Ht2) as [[rest ->]|(_ & Hin & Hl)]; [lia| |].
        -- left. by eexists _, _, _.
        -- right. split; [elem_of_explicit|].
           by rewrite launches_app, launches_aftermath, Hl.
      * exists suf. split; [|by right].
        unfold trace_of. rewrite run_S_over'.
        { fold (trace_of w (S n)). rewrite Htr1, Hm. by rewrite <- !app_assoc. }
        unfold outcome_of. by rewrite HS.
Qed.

End RunFacts.

(** ** The scenarios, run *)

Example posix_join_plain : posix_join (posix_join "/srv" "BOT") "app_20.py" = "/srv/BOT/app_20.py".
Proof. reflexivity. Qed.

Example posix_join_root : posix_join (posix_join "/" "BOT") "app_20.py" = "/BOT/app_20.py".
Proof. reflexivity. Qed.

Example posix_join_dot : posix_join (posix_join "." "BOT") "app_20.py" = "BOT/app_20.py".
Proof. reflexivity. Qed.

Example scenario_A :
  outcome_of w_A 1 = Exited 0 /\
  length (launches (trace_of w_A 1)) = 1%nat /\
  delays (trace_of w_A 1) = [].
Proof. repeat split. Qed.

Example scenario_B :
  outcome_of w_B 3 = Exited 0 /\
  length (launches (trace_of w_B 3)) = 3%nat /\
  delays (trace_of w_B 3) = [2; 2].
Proof. repeat split. Qed.

Example scenario_C :
  outcome_of w_C 3 = Exited 0 /\
  length (launches (trace_of w_C 3)) = 3%nat /\
  delays (trace_of w_C 3) = [3; 2; 3; 2].
Proof. repeat split. Qed.

Example scenario_fault :
  outcome_of w_fault 2 = Exited 0 /\
  length (launches (trace_of w_fault 2)) = 2%nat /\
  delays (trace_of w_fault 2) = [10; 2].
Proof. repeat split. Qed.

(** A Ctrl+C during the [time.sleep(3)] of the crash path is caught. *)
Example scenario_crash_ctrl_c :
  outcome_of w_crash_ctrl_c 1 = Exited 0 /\
  last (trace_of w_crash_ctrl_c 1) = Some (EvPrint msg_ctrl_c).
Proof. repeat split. Qed.

(** In [w_crash_ctrl_c] one blocking call has been made when the status 137
    is read, the launch, which is number 0; the Ctrl+C arrives during the call
    that comes next, number 1, the [time.sleep(3)]. *)
Example calls_at_crash :
  calls ((EvPrint <$> banner w_crash_ctrl_c) ++ [EvLaunch (launch0 w_crash_ctrl_c)]) = 1%nat /\
  sigint w_crash_ctrl_c 1 = true.
Proof. repeat split. Qed.

(** ** The environment of the children *)

Section Environment.

Variable w : world.

Lemma overlay_eq : overlay w = <[MARKER := "1"]> (os_environ w 0).
Proof. done. Qed.

(** Every call of [subprocess.run] is the same call, with the same [env]. *)
Lemma launches_same n l : l ∈ launches (trace_of w n) -> l = launch0 w.
Proof.
  unfold trace_of. destruct (run w n) as [[o st] tr] eqn:Hn.
  change (o, st, tr).2 with tr.
  revert o st tr Hn. induction n as [|n IH]; intros o st tr Hn.
  - rewrite run_0 in Hn. injection Hn as <- <- <-.
    by intros ?%elem_of_nil.
  - destruct (run w n) as [[o0 st0] tr0] eqn:Hn0.
    assert (o0 = Looping \/ o0 <> Looping) as [->|Ho0] by (destruct o0; auto).
    2: { rewrite (run_S_over _ _ _ _ _ Hn0 Ho0) in Hn. simplify_eq. by eapply IH. }
    destruct (looping_inv _ _ _ _ Hn0) as (_ & Henv & _ & _ & _ & Hl).
    destruct (run_S_looping _ _ _ _ Hn0) as (r & st' & evs & HS & Ht & _).
    rewrite HS in Hn. injection Hn as <- <- <-.
    rewrite launches_app, elem_of_app. intros [Hin|Hin]; [by eapply IH|].
    assert (the_launch w st0 = launch0 w) as E
      by (unfold the_launch, launch0; by rewrite Henv).
    destruct Ht as [|r tail He].
    + by apply elem_of_nil in Hin.
    + rewrite launches_app, launches_pause, launches_launch, E in Hin.
      assert (launches tail = []) as Htl by (by destruct He).
      rewrite Htl in Hin. by apply list_elem_of_singleton in Hin.
Qed.

(** The dictionary [env] is never assigned to after the start. *)
Lemma env_constant n : env (state_of w n) = overlay w.
Proof.
  unfold state_of. induction n as [|n IH]; [done|].
  destruct (run w n) as [[o0 st0] tr0] eqn:Hn0.
  assert (o0 = Looping \/ o0 <> Looping) as [->|Ho0] by (destruct o0; auto).
  - destruct (run_S_looping _ _ _ _ Hn0) as (r & st' & evs & -> & _ & _ & E & _).
    cbn in *. congruence.
  - by rewrite (run_S_over _ _ _ _ _ Hn0 Ho0).
Qed.

End Environment.

(** C8. Every launch, in whatever turn of the loop it is made, hands the child
    an environment in which [BOT_AUTO_RESTART] is bound to ["1"]. *)
Theorem marker_in_every_launch (w : world) (n : nat) (l : launch) :
  l ∈ launches (trace_of w n) ->
  launch_env l !! "BOT_AUTO_RESTART" = Some "1".
Proof.
  intros ->%launches_same. cbn [launch_env launch0].
  rewrite overlay_eq. apply lookup_insert_eq.
Qed.

Lemma marker_in_every_launch_witness :
  launch0 w_B ∈ launches (trace_of w_B 3) /\
  launch_env (launch0 w_B) !! "BOT_AUTO_RESTART" = Some "1".
Proof.
  assert (launch0 w_B ∈ launches (trace_of w_B 3)) as Hin.
  { apply list_elem_of_lookup. exists 2%nat. vm_compute. reflexivity. }
  split; [exact Hin|].
  exact (marker_in_every_launch w_B 3 (launch0 w_B) Hin).
Defined.

(** C7, as written: the overlay would follow [os.environ] from launch to
    launch.  It does not: with [TZ] set while the first child runs, the second
    child is still launched without it. *)
Lemma overlay_recomputed_fails : ~ overlay_recomputed w_env 2.
Proof.
  intros H. specialize (H 1%nat (launch0 w_env) eq_refl).
  apply (f_equal (fun m => m !! "TZ")) in H. vm_compute in H. discriminate H.
Qed.

(** C7, amended: [env] is computed once, before the loop, as the copy of
    [os.environ] at that moment with the marker added.  It is never changed
    afterwards, and every launch is given this same dictionary, whatever
    [os.environ] holds by then. *)
Theorem overlay_is_startup_snapshot (w : world) (n i : nat) (l : launch) :
  launches (trace_of w n) !! i = Some l ->
  launch_env l = <[MARKER := "1"]> (os_environ w 0) /\
  env (state_of w n) = <[MARKER := "1"]> (os_environ w 0).
Proof.
  intros Hl. rewrite env_constant, <- overlay_eq. split; [|done].
  assert (l ∈ launches (trace_of w n)) as ->%launches_same
    by (apply list_elem_of_lookup; eauto).
  done.
Qed.

Lemma overlay_is_startup_snapshot_witness :
  launch_env (launch0 w_env) = <[MARKER := "1"]> (os_environ w_env 0) /\
  env (state_of w_env 2) = <[MARKER := "1"]> (os_environ w_env 0).
Proof.
  apply (overlay_is_startup_snapshot w_env 2 1). reflexivity.
Defined.

(** ** How the supervisor stops *)

(** C1. Once a child has exited with status 0, the only thing that still
    happens is the confirmation line: the loop is left, the process ends with
    status 0, and however long one watches there is no further launch.  If the
    child that exited with 0 was the first one, one launch is seen in all. *)
Theorem clean_exit_stops_supervisor (w : world) (n : nat) (pre suf : list event) :
  trace_of w n = pre ++ EvExit 0 :: suf ->
  suf = [EvPrint msg_clean_exit] /\
  outcome_of w n = Exited 0 /\
  (forall m, (n <= m)%nat ->
     run w m = run w n /\ launches (trace_of w m) = launches pre) /\
  (length (launches pre) = 1%nat ->
     forall m, (n <= m)%nat -> length (launches (trace_of w m)) = 1%nat).
Proof.
  intros H. unfold trace_of, outcome_of in *.
  destruct (run w n) as [[o st] tr] eqn:Hn. cbn [fst snd] in *.
  assert (o <> Looping) as Ho.
  { intros ->. destruct (looping_inv _ _ _ _ Hn) as (_ & _ & _ & _ & Hex & _).
    apply Hex. rewrite H. elem_of_explicit. }
  assert (suf = [EvPrint msg_clean_exit] /\ o = Exited 0) as [-> ->].
  { destruct (over_inv _ _ _ _ _ Hn Ho) as [p Hi Hx|p Hi Hx|p e Hi Hx].
    - apply app_eq_app_cons in H as [(m & -> & _)|(m & -> & Hm)].
      + exfalso. apply Hx. elem_of_explicit.
      + destruct m as [|? m]; [by injection Hm as <-|].
        injection Hm as _ Hm. destruct m as [|? m]; [done|].
        injection Hm as _ Hm. by destruct m.
    - exfalso. assert (EvExit 0 ∈ p ++ [EvInterrupt; EvPrint msg_ctrl_c]) as Hin
        by (rewrite H; elem_of_explicit).
      rewrite elem_of_app, !elem_of_cons, elem_of_nil in Hin. naive_solver.
    - exfalso.
      assert (EvExit 0 ∈ p ++ [EvFault e; EvPrint (msg_error e);
                               EvPrint msg_retrying; EvInterrupt]) as Hin
        by (rewrite H; elem_of_explicit).
      rewrite elem_of_app, !elem_of_cons, elem_of_nil in Hin. naive_solver. }
  assert (forall m, (n <= m)%nat ->
            run w m = (Exited 0, st, tr) /\ launches (run w m).2 = launches pre)
    as Hstable.
  { intros m Hm. rewrite (run_over_stable _ _ _ _ _ _ Hn Ho Hm). split; [done|].
    cbn [snd]. rewrite H, launches_app. cbn. by rewrite app_nil_r. }
  repeat split; [apply Hstable..|]; try done.
  intros Hone m Hm. destruct (Hstable m Hm) as [_ ->]. done.
Qed.

Lemma clean_exit_stops_supervisor_witness :
  trace_of w_A 1 =
    ((EvPrint <$> banner w_A) ++ [EvLaunch (launch0 w_A)]) ++
    EvExit 0 :: [EvPrint msg_clean_exit] /\
  outcome_of w_A 1 = Exited 0 /\
  length (launches (trace_of w_A 5)) = 1%nat.
Proof.
  assert (trace_of w_A 1 =
            ((EvPrint <$> banner w_A) ++ [EvLaunch (launch0 w_A)]) ++
            EvExit 0 :: [EvPrint msg_clean_exit]) as H by reflexivity.
  destruct (clean_exit_stops_supervisor w_A 1 _ _ H) as (_ & Ho & _ & Hone).
  split; [exact H|]. split; [exact Ho|].
  apply Hone; [reflexivity|lia].
Defined.

(** Without Ctrl+C and without a child that exits with 0, every turn of the
    loop is followed by another one. *)
Lemma loops_forever (w : world) (n : nat) :
  (forall k, sigint w k = false) ->
  (forall k, child w k <> Returncode 0) ->
  outcome_of w n = Looping.
Proof.
  intros Hs Hc. unfold outcome_of. induction n as [|n IH]; [done|].
  destruct (run w n) as [[o st] tr] eqn:Hn. cbn in IH. subst o.
  destruct (run_S_looping _ _ _ _ Hn) as (r & st' & evs & -> & Ht & _).
  cbn [fst]. destruct Ht as [Hk _|r tail He]; [by rewrite Hs in Hk|].
  destruct He;
    try match goal with H : sigint w _ = true |- _ => by rewrite Hs in H end;
    try done.
  by edestruct Hc.
Qed.

(** C6. When the process has come to its end, then either the last child
    exited with status 0 and the loop was left, or a Ctrl+C arrived.  With any
    other exit statuses and any launch faults, and no Ctrl+C, the loop is
    still running after any number of turns, and has launched a child in
    every one of them. *)
Theorem stops_only_on_clean_exit_or_interrupt (w : world) (n : nat) :
  (outcome_of w n <> Looping ->
     (outcome_of w n = Exited 0 /\
      exists pre, trace_of w n = pre ++ [EvExit 0; EvPrint msg_clean_exit]) \/
     EvInterrupt ∈ trace_of w n) /\
  ((forall k, sigint w k = false) ->
   (forall k, child w k <> Returncode 0) ->
     outcome_of w n = Looping /\ length (launches (trace_of w n)) = n).
Proof.
  split.
  - unfold outcome_of, trace_of. destruct (run w n) as [[o st] tr] eqn:Hn.
    cbn [fst snd]. intros Ho.
    destruct (over_inv _ _ _ _ _ Hn Ho) as [p _ _|p _ _|p e _ _].
    + left. eauto.
    + right. elem_of_explicit.
    + right. elem_of_explicit.
  - intros Hs Hc. pose proof (loops_forever w n Hs Hc) as Ho. split; [done|].
    unfold outcome_of, trace_of in *. destruct (run w n) as [[o st] tr] eqn:Hn.
    cbn [fst snd] in *. subst o.
    destruct (looping_inv _ _ _ _ Hn) as (_ & _ & _ & _ & _ & ->).
    apply length_replicate.
Qed.

Lemma stops_only_on_clean_exit_or_interrupt_witness :
  outcome_of w_forever 4 = Looping /\
  length (launches (trace_of w_forever 4)) = 4%nat.
Proof.
  apply (stops_only_on_clean_exit_or_interrupt w_forever 4).
  - intros k. reflexivity.
  - intros k. discriminate.
Defined.

(** Where a Ctrl+C leads: it is caught, the shutdown line is printed and the
    process exits with status 0, in every blocking call of the [try] body;
    it is not caught in the [time.sleep(10)] of the [except Exception]
    clause. *)
Lemma interrupt_outcomes (w : world) (n : nat) :
  EvInterrupt ∈ trace_of w n ->
  (outcome_of w n = Exited 0 /\
   exists pre, trace_of w n = pre ++ [EvInterrupt; EvPrint msg_ctrl_c]) \/
  (outcome_of w n = Traceback KeyboardInterrupt /\
   exists pre e,
     trace_of w n =
       pre ++ [EvFault e; EvPrint (msg_error e); EvPrint msg_retrying; EvInterrupt]).
Proof.
  intros Hin. pose proof (interrupt_over w n Hin) as Ho.
  unfold outcome_of, trace_of in *. destruct (run w n) as [[o st] tr] eqn:Hn.
  cbn [fst snd] in *.
  destruct (over_inv _ _ _ _ _ Hn Ho) as [p Hi _|p _ _|p e _ _]; [|eauto..].
  exfalso. rewrite elem_of_app, !elem_of_cons, elem_of_nil in Hin. naive_solver.
Qed.

(** C4, at the input on which the script does not do what is claimed.  The
    first launch fails; Ctrl+C arrives while the [except Exception] clause
    sleeps its 10 seconds.  The [KeyboardInterrupt] is raised inside a handler
    of the [try] statement, so the [except KeyboardInterrupt] clause of that
    statement does not see it: no shutdown line is printed and the process
    dies of the exception instead of exiting with status 0. *)
Theorem interrupt_during_fault_pause_is_not_caught :
  run w_fault_ctrl_c 1 =
    (Traceback KeyboardInterrupt,
     State 1 (overlay w_fault_ctrl_c) 2 1,
     (EvPrint <$> banner w_fault_ctrl_c) ++
     [EvLaunch (launch0 w_fault_ctrl_c); EvFault no_interpreter;
      EvPrint (msg_error no_interpreter); EvPrint msg_retrying; EvInterrupt]) /\
  (msg_ctrl_c ∉ printed (trace_of w_fault_ctrl_c 1)) /\
  forall n, (1 <= n)%nat -> outcome_of w_fault_ctrl_c n = Traceback KeyboardInterrupt.
Proof.
  assert (run w_fault_ctrl_c 1 =
    (Traceback KeyboardInterrupt,
     State 1 (overlay w_fault_ctrl_c) 2 1,
     (EvPrint <$> banner w_fault_ctrl_c) ++
     [EvLaunch (launch0 w_fault_ctrl_c); EvFault no_interpreter;
      EvPrint (msg_error no_interpreter); EvPrint msg_retrying; EvInterrupt]))
    as H by (vm_compute; reflexivity).
  split; [exact H|]. split.
  - unfold trace_of. rewrite H. vm_compute. intros Hin.
    repeat (apply elem_of_cons in Hin as [Hin|Hin]; [discriminate Hin|]).
    by apply elem_of_nil in Hin.
  - intros n Hn. unfold outcome_of.
    by rewrite (run_over_stable _ _ _ _ _ _ H ltac:(done) Hn).
Qed.

(** ** What follows a non-zero exit status or a fault *)

Lemma delays_app (tr1 tr2 : list event) : delays (tr1 ++ tr2) = delays tr1 ++ delays tr2.
Proof. apply omap_app. Qed.

Lemma launches_nil_Forall (tr : list event) :
  launches tr = [] -> Forall (fun e => is_launch e = false) tr.
Proof.
  induction tr as [|e tr IH]; [constructor|].
  destruct e; try done; intros H; constructor; auto.
Qed.

Lemma launches_gap x rc : launches (gap x rc) = [].
Proof. unfold gap. by rewrite !launches_app, launches_aftermath. Qed.

Lemma delays_gap_exit c rc :
  delays (gap (EvExit c) rc) = if c =? 1 then [2] else [3; 2].
Proof. unfold gap. cbn [aftermath]. by destruct (c =? 1). Qed.

Lemma delays_gap_fault e rc : delays (gap (EvFault e) rc) = [10; 2].
Proof. done. Qed.

Lemma relaunch_or_interrupt_gap (w : world) n pre x suf :
  trace_of w n = pre ++ x :: suf ->
  is_verdict x = true -> x <> EvExit 0 ->
  exists suf',
    trace_of w (S n) = pre ++ x :: suf' /\
    ((exists rc l rest, suf' = gap x rc ++ EvLaunch l :: rest) \/
     (EvInterrupt ∈ suf' /\ launches suf' = [])).
Proof.
  intros H Hx Hx0.
  destruct (relaunch_or_interrupt w n pre x suf H Hx Hx0)
    as (suf' & E & [(rc & l & rest & Hsuf)|Hint]); exists suf'.
  - split; [done|]. left. exists rc, l, rest. unfold gap.
    by rewrite Hsuf, <- !app_assoc.
  - split; [done|]. by right.
Qed.

(** Whenever a launch follows a restarting verdict, exactly the [gap] lies
    between the two. *)
Lemma gap_before_relaunch (w : world) n pre x mid l post :
  trace_of w n = pre ++ x :: mid ++ EvLaunch l :: post ->
  launches mid = [] ->
  is_verdict x = true -> x <> EvExit 0 ->
  exists rc, mid = gap x rc.
Proof.
  intros H Hmid Hx Hx0.
  destruct (relaunch_or_interrupt_gap w n _ _ _ H Hx Hx0)
    as (suf' & E & Hcases).
  destruct (trace_of_S w n) as [evs Hevs]. rewrite H in Hevs.
  rewrite Hevs in E. rewrite <- app_assoc in E. apply app_inv_head in E.
  cbn [app] in E. injection E as E. rewrite <- app_assoc in E. cbn [app] in E.
  destruct Hcases as [(rc & l' & rest & ->)|[_ Hl]].
  - exists rc. eapply (first_split is_launch) in E as (? & _); try done.
    + by apply launches_nil_Forall.
    + apply launches_nil_Forall, launches_gap.
  - rewrite <- E, launches_app, launches_launch in Hl. by destruct (launches mid).
Qed.

(** ** The same, when no Ctrl+C arrives in between *)

Lemma calls_app (tr1 tr2 : list event) : calls (tr1 ++ tr2) = (calls tr1 + calls tr2)%nat.
Proof. unfold calls. rewrite delays_app, launches_app, !length_app. lia. Qed.

Lemma calls_pause rc : calls (pause rc) = if rc >? 1 then 1%nat else 0%nat.
Proof. unfold pause. by case_match. Qed.

Lemma calls_aftermath x : calls (aftermath x) = length (delays (aftermath x)).
Proof. unfold calls. rewrite launches_aftermath. cbn. lia. Qed.

Section Quiet.

Variable w : world.

(** A turn that hands control back to the loop has made as many blocking
    calls as it has left sleeps and launches in the trace. *)
Lemma loop_body_calls st st' evs :
  loop_body w st = (Normal Continue, st', evs) ->
  blocked st' = (blocked st + calls evs)%nat.
Proof.
  unfold loop_body, try_except, try_body, handlers.
  unfold_stmt. intros H.
  destruct (restart_count st + 1 >? 1) eqn:Hrc; split_body w H; simplify_eq.
  all: unfold calls; cbn; lia.
Qed.

Lemma looping_calls n st tr :
  run w n = (Looping, st, tr) -> blocked st = calls tr.
Proof.
  revert st tr. induction n as [|n IH]; intros st tr H.
  - rewrite run_0 in H. by injection H as <- <-.
  - destruct (run w n) as [[o0 st0] tr0] eqn:Hn.
    destruct o0; try (rewrite (run_S_over _ _ _ _ _ Hn) in H; done).
    cbn [run] in H. rewrite Hn in H.
    destruct (loop_body w st0) as [[r st1] evs] eqn:Hb.
    injection H as Hr -> <-.
    assert (r = Normal Continue) as -> by (by destruct r as [[]|[]]).
    rewrite (loop_body_calls _ _ _ Hb), (IH _ _ eq_refl), calls_app. done.
Qed.

(** A turn that reads a non-zero status or catches a fault leaves the loop
    running when no Ctrl+C arrives during the sleep of its [aftermath]. *)
Lemma turn_verdict_quiet st r evs m x suf :
  turn w st r evs -> evs = m ++ x :: suf ->
  is_verdict x = true -> x <> EvExit 0 ->
  (x <> EvExit 1 -> sigint w (blocked st + calls m) = false) ->
  r = Normal Continue /\ suf = aftermath x.
Proof.
  intros Ht Hevs Hx Hx0 Hq.
  destruct (turn_verdict w _ _ _ _ _ _ Ht Hevs Hx Hx0) as [?|(Hr & _)]; [done|].
  exfalso. destruct Ht as [Hk Hrc|r tail He].
  - assert (x ∈ notice (restart_count st + 1) ++ [EvInterrupt; EvPrint msg_ctrl_c])
      as Hin by (rewrite Hevs, elem_of_app, elem_of_cons; auto).
    unfold notice in Hin. rewrite elem_of_app, !elem_of_cons, !elem_of_nil in Hin.
    destruct_or!; by subst.
  - assert (forall y t, tail = y :: t ->
              Forall (fun e => is_verdict e = false) t ->
              m = pause (restart_count st + 1) ++ [EvLaunch (the_launch w st)] /\
              x = y) as Hsplit.
    { intros y t -> Ht.
      replace (pause (restart_count st + 1) ++ EvLaunch (the_launch w st) :: y :: t)
        with ((pause (restart_count st + 1) ++ [EvLaunch (the_launch w st)]) ++ y :: t)
        in Hevs by (by rewrite <- app_assoc).
      eapply only_split in Hevs as (? & ? & _); [done| |done|done].
      apply Forall_app. split; [apply pause_no_verdict|by repeat constructor]. }
    assert (forall t, m = pause (restart_count st + 1) ++ t -> calls t = 1%nat ->
              (blocked st + calls m)%nat = S (launch_call st)) as Hcall.
    { intros t -> Hone. rewrite calls_app, calls_pause, Hone. unfold launch_call.
      destruct (restart_count st + 1 >? 1); lia. }
    destruct He;
      (destruct (Hsplit _ _ eq_refl) as [Hm ->]; [by repeat constructor|]);
      try (cbn in Hx; congruence); try done.
    all: rewrite (Hcall _ Hm eq_refl) in Hq.
    all: match goal with
         | Hs : sigint _ (S (launch_call _)) = true |- _ =>
             rewrite Hq in Hs; [done|congruence]
         end.
Qed.

(** From the second turn on, a turn sleeps 2 seconds and launches when no
    Ctrl+C arrives during that sleep. *)
Lemma turn_relaunch_quiet st r evs :
  turn w st r evs -> restart_count st >= 1 ->
  sigint w (blocked st) = false ->
  exists rest,
    evs = notice (restart_count st + 1) ++
          EvSleep 2 :: EvLaunch (the_launch w st) :: rest.
Proof.
  intros Ht Hrc Hq. destruct Ht as [Hk _|r tail He]; [by rewrite Hq in Hk|].
  exists tail. unfold pause.
  destruct (Z.gtb_spec (restart_count st + 1) 1); [|lia].
  by rewrite <- app_assoc.
Qed.

(** After a non-zero exit status or a fault, the script goes through the
    [gap] and launches again, when no Ctrl+C arrives during the sleeps of the
    gap. *)
Lemma relaunch_when_quiet n pre x suf :
  trace_of w n = pre ++ x :: suf ->
  is_verdict x = true -> x <> EvExit 0 ->
  (forall k, (calls pre <= k <= calls pre + length (delays (aftermath x)))%nat ->
     sigint w k = false) ->
  exists rc l rest, trace_of w (S n) = pre ++ x :: gap x rc ++ EvLaunch l :: rest.
Proof.
  intros H Hx Hx0 Hq. revert suf H. induction n as [|n IH]; intros suf H.
  - assert (x ∈ EvPrint <$> banner w) as Hin
      by (change (EvPrint <$> banner w) with (trace_of w 0); rewrite H;
          rewrite elem_of_app, elem_of_cons; auto).
    apply list_elem_of_fmap in Hin as (? & -> & _). done.
  - destruct (run w n) as [[o0 st0] tr0] eqn:Hn.
    assert (trace_of w n = tr0) as Htr0 by (unfold trace_of; by rewrite Hn).
    assert (o0 = Looping \/ o0 <> Looping) as [->|Ho0] by (destruct o0; auto).
    2: { assert (run w (S n) = run w n) as E1
           by (apply run_S_over'; unfold outcome_of; by rewrite Hn).
         assert (run w (S (S n)) = run w (S n)) as E2
           by (apply run_S_over'; unfold outcome_of; by rewrite E1, Hn).
         unfold trace_of in *. rewrite E2, E1. rewrite E1 in H.
         destruct (IH _ H) as (rc & l & rest & E). rewrite E1 in E. eauto. }
    destruct (run_S_looping _ _ _ _ Hn) as (r & st' & evs & HS & Ht & _).
    assert (trace_of w (S n) = tr0 ++ evs) as Htr1 by (unfold trace_of; by rewrite HS).
    rewrite Htr1 in H.
    destruct (trace_of_S w (S n)) as [evs2 Htr2]. rewrite Htr1 in Htr2.
    apply app_eq_app_cons in H as [(m & Hm & ->)|(m & -> & Hm)].
    + rewrite Htr0 in IH. destruct (IH _ Hm) as (rc & l & rest & E).
      exists rc, l, (rest ++ evs2). rewrite Htr2, <- Htr1, E.
      rewrite <- !app_assoc. cbn [app]. by rewrite <- ?app_assoc.
    + pose proof (looping_calls _ _ _ Hn) as Hb0.
      destruct (turn_verdict_quiet _ _ _ _ _ _ Ht Hm Hx Hx0) as [-> ->].
      { intros _. rewrite Hb0, <- calls_app. apply Hq. lia. }
      change (after_body (Normal Continue)) with Looping in HS.
      destruct (looping_inv _ _ _ _ HS) as (Hrc1 & _).
      pose proof (looping_calls _ _ _ HS) as Hb1.
      destruct (run_S_looping _ _ _ _ HS) as (r2 & st2 & evs2' & HS2 & Ht2 & _).
      assert (evs2' = evs2) as ->.
      { unfold trace_of in Htr2. rewrite HS2 in Htr2. cbn in Htr2.
        by apply app_inv_head in Htr2. }
      destruct (turn_relaunch_quiet _ _ _ Ht2) as [rest ->]; [lia| |].
      { rewrite Hb1. apply Hq. rewrite Hm.
        rewrite !calls_app. change (x :: aftermath x) with ([x] ++ aftermath x).
        rewrite calls_app, calls_aftermath.
        assert (calls [x] = 0%nat) as -> by (by destruct x).
        lia. }
      exists (restart_count st' + 1), (the_launch w st'), rest.
      rewrite Htr2, Hm. unfold gap. rewrite <- !app_assoc. cbn [app].
      by rewrite <- ?app_assoc.
Qed.

End Quiet.

Lemma total_delay_app (tr1 tr2 : list event) :
  total_delay (tr1 ++ tr2) = total_delay tr1 + total_delay tr2.
Proof.
  unfold total_delay. rewrite delays_app.
  induction (delays tr1) as [|d ds IH]; cbn; [done|]. rewrite IH. lia.
Qed.

(** Once the process has ended, no launch is ever added to the trace. *)
Lemma launches_bounded_after_stop (w : world) (n m : nat) :
  outcome_of w n <> Looping ->
  (length (launches (trace_of w m)) <= length (launches (trace_of w n)))%nat.
Proof.
  intros Ho. destruct (Nat.le_gt_cases m n) as [Hle|Hgt].
  - destruct (trace_of_le w m n Hle) as [evs ->].
    rewrite launches_app, length_app. lia.
  - unfold outcome_of, trace_of in *. destruct (run w n) as [[o st] tr] eqn:Hn.
    cbn [fst snd] in *.
    assert (n <= m)%nat as Hnm by lia.
    rewrite (run_over_stable _ _ _ _ _ _ Hn Ho Hnm). done.
Qed.

Lemma no_relaunch_after_stop (w : world) (n : nat) (pre suf : list event) (x : event) :
  outcome_of w n <> Looping ->
  trace_of w n = pre ++ x :: suf ->
  launches (x :: suf) = [] ->
  ~ relaunch_follows x w n.
Proof.
  intros Ho Htr Hl Hclaim.
  destruct (Hclaim pre suf Htr) as (m & mid & l & rest & E & _).
  pose proof (launches_bounded_after_stop w n m Ho) as Hle.
  rewrite E, Htr in Hle.
  change (x :: suf) with ([x] ++ suf) in Hl, Hle.
  change (x :: mid ++ EvLaunch l :: rest)
    with ([x] ++ mid ++ EvLaunch l :: rest) in Hle.
  rewrite !launches_app, launches_launch, !length_app in Hle.
  rewrite launches_app in Hl. apply app_eq_nil in Hl as [Hx Hs].
  rewrite Hx, Hs in Hle. cbn in Hle. lia.
Qed.

(** C2, as written: exactly one relaunch follows exit status 1, with no pause
    of 2 seconds or more before it.  Neither half holds.  In the run in which
    the first child exits with 1, the second launch comes after
    [time.sleep(2)]; and when Ctrl+C arrives during that sleep, the supervisor
    stops and no relaunch follows at all. *)
Lemma relaunch_without_pause_fails :
  ~ relaunch_without_pause w_B 2 /\
  ~ relaunch_follows (EvExit 1) w_restart_ctrl_c 2.
Proof.
  split.
  - intros H.
    specialize (H ((EvPrint <$> banner w_B) ++ [EvLaunch (launch0 w_B)])
                  (gap (EvExit 1) 2) (launch0 w_B)
                  [EvExit 1; EvPrint (msg_exited 1)] eq_refl eq_refl).
    vm_compute in H. apply Forall_cons in H as [H _]. discriminate H.
  - apply (no_relaunch_after_stop w_restart_ctrl_c 2
             ((EvPrint <$> banner w_restart_ctrl_c) ++
              [EvLaunch (launch0 w_restart_ctrl_c)])
             ([EvPrint (msg_exited 1)] ++ notice 2 ++
              [EvInterrupt; EvPrint msg_ctrl_c])).
    + discriminate.
    + reflexivity.
    + reflexivity.
Qed.

(** C2, amended: after a child has exited with status 1, the next turn of the
    loop relaunches it once, provided no Ctrl+C arrives during the pause
    before the restart, which is the blocking call that comes next when the
    status is read.  Between reading the status and that launch the script
    sleeps exactly once, the 2 seconds it sleeps before every restart; the 3
    seconds of the crash path are not taken. *)
Theorem requested_restart_relaunches_after_pause
    (w : world) (n : nat) (pre suf : list event) :
  trace_of w n = pre ++ EvExit 1 :: suf ->
  sigint w (calls pre) = false ->
  exists mid l rest,
    trace_of w (S n) = pre ++ EvExit 1 :: mid ++ EvLaunch l :: rest /\
    launches mid = [] /\ delays mid = [2].
Proof.
  intros H Hq.
  destruct (relaunch_when_quiet w n _ _ _ H eq_refl ltac:(done))
    as (rc & l & rest & E).
  { intros k Hk. cbn in Hk. by replace k with (calls pre) by lia. }
  exists (gap (EvExit 1) rc), l, rest.
  split; [done|]. split; [apply launches_gap|apply delays_gap_exit].
Qed.

Lemma requested_restart_relaunches_after_pause_witness :
  exists mid l rest,
    trace_of w_B 2 =
      ((EvPrint <$> banner w_B) ++ [EvLaunch (launch0 w_B)]) ++
      EvExit 1 :: mid ++ EvLaunch l :: rest /\
    launches mid = [] /\ delays mid = [2].
Proof.
  apply (requested_restart_relaunches_after_pause w_B 1
           ((EvPrint <$> banner w_B) ++ [EvLaunch (launch0 w_B)])
           [EvPrint (msg_exited 1)]).
  - reflexivity.
  - reflexivity.
Defined.

(** C3, as written: a relaunch follows every exit status other than 0 and 1.
    When Ctrl+C arrives during the [time.sleep(3)] of the crash path, the
    supervisor prints the shutdown line and exits, and no relaunch follows,
    however long one watches. *)
Lemma crash_relaunch_can_be_interrupted :
  ~ relaunch_follows (EvExit 137) w_crash_ctrl_c 1.
Proof.
  apply (no_relaunch_after_stop w_crash_ctrl_c 1
           ((EvPrint <$> banner w_crash_ctrl_c) ++
            [EvLaunch (launch0 w_crash_ctrl_c)])
           [EvPrint (msg_exited 137); EvPrint msg_waiting;
            EvInterrupt; EvPrint msg_ctrl_c]).
  - discriminate.
  - reflexivity.
  - reflexivity.
Qed.

(** C3, amended: after a child has exited with a status other than 0 and 1,
    the next turn of the loop relaunches it once, provided no Ctrl+C arrives
    during the two blocking calls that come next when the status is read, the
    [time.sleep(3)] of the crash path and the [time.sleep(2)] before the
    restart.  These two sleeps, and no other, lie between reading the status
    and the launch, so the launch is at least 3 seconds away. *)
Theorem crash_relaunches_after_delay
    (w : world) (n : nat) (pre suf : list event) (c : Z) :
  trace_of w n = pre ++ EvExit c :: suf ->
  c <> 0 -> c <> 1 ->
  sigint w (calls pre) = false ->
  sigint w (S (calls pre)) = false ->
  exists mid l rest,
    trace_of w (S n) = pre ++ EvExit c :: mid ++ EvLaunch l :: rest /\
    launches mid = [] /\ delays mid = [3; 2] /\ 3 <= total_delay mid.
Proof.
  intros H Hc0 Hc1 Hq0 Hq1.
  destruct (relaunch_when_quiet w n _ _ _ H eq_refl ltac:(congruence))
    as (rc & l & rest & E).
  { intros k Hk. cbn [aftermath] in Hk. destruct (Z.eqb_spec c 1); [done|].
    cbn in Hk.
    assert (k = calls pre \/ k = S (calls pre)) as [->| ->] by lia; done. }
  exists (gap (EvExit c) rc), l, rest.
  split; [done|]. split; [apply launches_gap|].
  unfold total_delay. rewrite delays_gap_exit.
  by destruct (Z.eqb_spec c 1).
Qed.

Lemma crash_relaunches_after_delay_witness :
  exists mid l rest,
    trace_of w_C 2 =
      ((EvPrint <$> banner w_C) ++ [EvLaunch (launch0 w_C)]) ++
      EvExit 137 :: mid ++ EvLaunch l :: rest /\
    launches mid = [] /\ delays mid = [3; 2] /\ 3 <= total_delay mid.
Proof.
  apply (crash_relaunches_after_delay w_C 1
           ((EvPrint <$> banner w_C) ++ [EvLaunch (launch0 w_C)])
           [EvPrint (msg_exited 137); EvPrint msg_waiting; EvSleep 3] 137).
  - reflexivity.
  - lia.
  - lia.
  - reflexivity.
  - reflexivity.
Defined.

(** C10. Whenever a launch follows an exit status other than 0 and 1, the
    script has slept twice in between, the 3 seconds of the crash path and
    then the 2 seconds at the top of the next turn: 5 seconds in all. *)
Theorem crash_pause_is_five
    (w : world) (n : nat) (pre mid post : list event) (c : Z) (l : launch) :
  trace_of w n = pre ++ EvExit c :: mid ++ EvLaunch l :: post ->
  launches mid = [] ->
  c <> 0 -> c <> 1 ->
  delays mid = [3; 2] /\ total_delay mid = 5.
Proof.
  intros H Hmid Hc0 Hc1.
  destruct (gap_before_relaunch w n _ _ _ _ _ H Hmid eq_refl ltac:(congruence))
    as [rc ->].
  unfold total_delay. rewrite delays_gap_exit.
  by destruct (Z.eqb_spec c 1).
Qed.

Lemma crash_pause_is_five_witness :
  delays (gap (EvExit 137) 2) = [3; 2] /\ total_delay (gap (EvExit 137) 2) = 5.
Proof.
  apply (crash_pause_is_five w_C 2
           ((EvPrint <$> banner w_C) ++ [EvLaunch (launch0 w_C)])
           (gap (EvExit 137) 2)
           [EvExit 137; EvPrint (msg_exited 137); EvPrint msg_waiting; EvSleep 3]
           137 (launch0 w_C)).
  - reflexivity.
  - reflexivity.
  - lia.
  - lia.
Defined.

(** ** Launch faults *)

(** The process never dies of an exception raised by [subprocess.run]: the
    only exception that can leave the loop is [KeyboardInterrupt]. *)
Lemma no_fault_escapes (w : world) (m : nat) (e : string) :
  outcome_of w m <> Traceback (Exception e).
Proof.
  unfold outcome_of. destruct (run w m) as [[o st] tr] eqn:Hm. cbn [fst].
  intros ->. pose proof (over_inv _ _ _ _ _ Hm ltac:(done)) as Hs. inversion Hs.
Qed.

(** C5, as written: after a launch fault the supervisor does not terminate
    and launches again.  When the 10 seconds of the [except Exception] clause
    have passed and Ctrl+C arrives during the [time.sleep(2)] before the
    restart, the supervisor prints the shutdown line and exits with status 0,
    and no further launch is attempted. *)
Lemma fault_retry_can_be_interrupted :
  ~ relaunch_follows (EvFault no_interpreter) w_fault_pause_ctrl_c 2.
Proof.
  apply (no_relaunch_after_stop w_fault_pause_ctrl_c 2
           ((EvPrint <$> banner w_fault_pause_ctrl_c) ++
            [EvLaunch (launch0 w_fault_pause_ctrl_c)])
           ([EvPrint (msg_error no_interpreter); EvPrint msg_retrying; EvSleep 10] ++
            notice 2 ++ [EvInterrupt; EvPrint msg_ctrl_c])).
  - discriminate.
  - reflexivity.
  - reflexivity.
Qed.

(** C5, amended: when spawning or waiting on the child raises, the exception
    does not leave the loop.  The script prints the error line, which ends
    with the description of the fault, and the retry line, and the next turn
    of the loop launches again, provided no Ctrl+C arrives during the two
    blocking calls that come next when the fault is caught, the
    [time.sleep(10)] of the [except Exception] clause and the [time.sleep(2)]
    before the restart.  These two sleeps, and no other, lie between the fault
    and the launch, so the launch is at least 10 seconds away. *)
Theorem launch_fault_is_retried
    (w : world) (n : nat) (pre suf : list event) (e : string) :
  trace_of w n = pre ++ EvFault e :: suf ->
  sigint w (calls pre) = false ->
  sigint w (S (calls pre)) = false ->
  (exists mid l rest,
     trace_of w (S n) =
       pre ++ EvFault e :: EvPrint (msg_error e) :: EvPrint msg_retrying ::
       mid ++ EvLaunch l :: rest /\
     launches mid = [] /\ delays mid = [10; 2] /\ 10 <= total_delay mid) /\
  (exists prefix, msg_error e = prefix +:+ e) /\
  (forall m e', outcome_of w m <> Traceback (Exception e')).
Proof.
  intros H Hq0 Hq1. split; [|split].
  - destruct (relaunch_when_quiet w n _ _ _ H eq_refl ltac:(done))
      as (rc & l & rest & E).
    { intros k Hk. cbn in Hk.
      assert (k = calls pre \/ k = S (calls pre)) as [->| ->] by lia; done. }
    exists (EvSleep 10 :: notice rc ++ [EvSleep 2]), l, rest.
    split; [done|]. split; [done|]. split; done.
  - by exists (nl +:+ "❌ Error running bot: ").
  - intros m e'. apply no_fault_escapes.
Qed.

Lemma launch_fault_is_retried_witness :
  (exists mid l rest,
     trace_of w_fault 2 =
       ((EvPrint <$> banner w_fault) ++ [EvLaunch (launch0 w_fault)]) ++
       EvFault no_interpreter :: EvPrint (msg_error no_interpreter) ::
       EvPrint msg_retrying :: mid ++ EvLaunch l :: rest /\
     launches mid = [] /\ delays mid = [10; 2] /\ 10 <= total_delay mid) /\
  (exists prefix, msg_error no_interpreter = prefix +:+ no_interpreter) /\
  (forall m e', outcome_of w_fault m <> Traceback (Exception e')).
Proof.
  apply (launch_fault_is_retried w_fault 1
           ((EvPrint <$> banner w_fault) ++ [EvLaunch (launch0 w_fault)])
           [EvPrint (msg_error no_interpreter); EvPrint msg_retrying; EvSleep 10]
           no_interpreter).
  - reflexivity.
  - reflexivity.
  - reflexivity.
Defined.

(** ** The restart counter *)




(** ** Further properties of the loop *)

Section Further.

Variable w : world.

Lemma ending_no_launch st r tail : ending w st r tail -> launches tail = [].
Proof. by destruct 1. Qed.

Lemma first_turn :
  exists rest, trace_of w 1 = (EvPrint <$> banner w) ++ EvLaunch (launch0 w) :: rest.
Proof.
  destruct (run_S_looping w 0 _ _ (run_0 w)) as (r & st' & evs & HS & Ht & _).
  unfold trace_of. rewrite HS. cbn [snd].
  destruct Ht as [_ Hrc|r tail He]; [done|].
  exists tail. done.
Qed.

End Further.

(** X1. Every child is started by the same command: the interpreter that runs
    the script, with one argument, the path that [pathlib] makes of the
    directory of the script, [BOT] and [app_20.py], and with the directory of
    the script as working directory. *)
Theorem launch_command_fixed (w : world) (n : nat) (l : launch) :
  l ∈ launches (trace_of w n) ->
  launch_args l =
    [sys_executable w; path_div w (path_div w (script_dir w) "BOT") "app_20.py"] /\
  launch_cwd l = script_dir w.
Proof. by intros ->%launches_same. Qed.

Lemma launch_command_fixed_witness :
  launch_args (launch0 w_C) = ["python3"; "/srv/BOT/app_20.py"] /\
  launch_cwd (launch0 w_C) = "/srv".
Proof.
  apply (launch_command_fixed w_C 2 (launch0 w_C)).
  apply list_elem_of_lookup. exists 1%nat. reflexivity.
Defined.

(** X2. The first launch is made at once: as soon as the loop has made one
    turn, the banner is followed directly by a launch, with no sleep and no
    restart notice in between. *)
Theorem first_launch_is_immediate (w : world) (n : nat) :
  (1 <= n)%nat ->
  exists rest,
    trace_of w n = (EvPrint <$> banner w) ++ EvLaunch (launch0 w) :: rest.
Proof.
  intros Hn. destruct (trace_of_le w 1 n Hn) as [evs ->].
  destruct (first_turn w) as [rest ->].
  exists (rest ++ evs). by rewrite <- app_assoc.
Qed.

Lemma first_launch_is_immediate_witness :
  exists rest,
    trace_of w_C 3 = (EvPrint <$> banner w_C) ++ EvLaunch (launch0 w_C) :: rest.
Proof. apply (first_launch_is_immediate w_C 3). lia. Defined.

(** X3. Restarts are throttled: every launch but the first one comes directly
    after a [time.sleep(2)] that ran to its end. *)
Theorem later_launches_follow_pause
    (w : world) (n : nat) (pre suf : list event) (l : launch) :
  trace_of w n = pre ++ EvLaunch l :: suf ->
  pre = EvPrint <$> banner w \/ exists pre', pre = pre' ++ [EvSleep 2].
Proof.
  revert pre suf. induction n as [|n IH]; intros pre suf H.
  - assert (EvLaunch l ∈ EvPrint <$> banner w) as Hin
      by (change (EvPrint <$> banner w) with (trace_of w 0); rewrite H;
          rewrite elem_of_app, elem_of_cons; auto).
    by apply list_elem_of_fmap in Hin as (? & ? & _).
  - destruct (run w n) as [[o0 st0] tr0] eqn:Hn.
    assert (trace_of w n = tr0) as Htr0 by (unfold trace_of; by rewrite Hn).
    assert (o0 = Looping \/ o0 <> Looping) as [->|Ho0] by (destruct o0; auto).
    2: { unfold trace_of in H. rewrite (run_S_over _ _ _ _ _ Hn Ho0) in H.
         eapply IH. rewrite Htr0. exact H. }
    destruct (looping_inv _ _ _ _ Hn) as (Hrc & _).
    destruct (run_S_looping _ _ _ _ Hn) as (r & st' & evs & HS & Ht & _).
    unfold trace_of in H. rewrite HS in H. cbn [snd] in H.
    apply app_eq_app_cons in H as [(m & Hm & _)|(m & -> & Hm)].
    { eapply IH. rewrite Htr0. exact Hm. }
    destruct Ht as [_ _|r tail He].
    + assert (EvLaunch l ∈ notice (restart_count st0 + 1) ++
                           [EvInterrupt; EvPrint msg_ctrl_c]) as Hin
        by (rewrite Hm, elem_of_app, elem_of_cons; auto).
      unfold notice in Hin. rewrite elem_of_app, !elem_of_cons, !elem_of_nil in Hin.
      naive_solver.
    + assert (m = pause (restart_count st0 + 1)) as ->.
      { apply (only_split is_launch) in Hm as (? & _); [done| | |done].
        - apply launches_nil_Forall, launches_pause.
        - apply launches_nil_Forall. by destruct He. }
      unfold pause. destruct (Z.gtb_spec (restart_count st0 + 1) 1) as [Hgt|Hle].
      * right. exists (tr0 ++ notice (restart_count st0 + 1)).
        by rewrite <- app_assoc.
      * left. assert (n = 0%nat) as -> by lia.
        rewrite run_0 in Hn. injection Hn as _ <-. by rewrite app_nil_r.
Qed.

Lemma later_launches_follow_pause_witness :
  (EvPrint <$> banner w_B) ++
    [EvLaunch (launch0 w_B); EvExit 1; EvPrint (msg_exited 1)] ++ notice 2 ++ [EvSleep 2]
    = EvPrint <$> banner w_B \/
  exists pre',
    (EvPrint <$> banner w_B) ++
      [EvLaunch (launch0 w_B); EvExit 1; EvPrint (msg_exited 1)] ++ notice 2 ++ [EvSleep 2]
    = pre' ++ [EvSleep 2].
Proof.
  apply (later_launches_follow_pause w_B 2 _
           [EvExit 1; EvPrint (msg_exited 1)] (launch0 w_B)).
  reflexivity.
Defined.

(** X4. Whenever a launch follows a launch fault, the script has slept twice
    in between, the 10 seconds of the [except Exception] clause and the 2
    seconds at the top of the next turn: 12 seconds in all. *)
Theorem fault_pause_is_twelve
    (w : world) (n : nat) (pre mid post : list event) (e : string) (l : launch) :
  trace_of w n = pre ++ EvFault e :: mid ++ EvLaunch l :: post ->
  launches mid = [] ->
  delays mid = [10; 2] /\ total_delay mid = 12.
Proof.
  intros H Hmid.
  destruct (gap_before_relaunch w n _ _ _ _ _ H Hmid eq_refl ltac:(done))
    as [rc ->].
  unfold total_delay. by rewrite delays_gap_fault.
Qed.

Lemma fault_pause_is_twelve_witness :
  delays (gap (EvFault no_interpreter) 2) = [10; 2] /\
  total_delay (gap (EvFault no_interpreter) 2) = 12.
Proof.
  apply (fault_pause_is_twelve w_fault 2
           ((EvPrint <$> banner w_fault) ++ [EvLaunch (launch0 w_fault)])
           (gap (EvFault no_interpreter) 2)
           [EvExit 0; EvPrint msg_clean_exit]
           no_interpreter (launch0 w_fault)).
  - reflexivity.
  - reflexivity.
Defined.

(** X5. Whenever a launch follows exit status 1, the script has slept exactly
    once in between, for 2 seconds; this holds whatever happens later in the
    run. *)
Theorem requested_restart_pause_is_two
    (w : world) (n : nat) (pre mid post : list event) (l : launch) :
  trace_of w n = pre ++ EvExit 1 :: mid ++ EvLaunch l :: post ->
  launches mid = [] ->
  delays mid = [2] /\ total_delay mid = 2.
Proof.
  intros H Hmid.
  destruct (gap_before_relaunch w n _ _ _ _ _ H Hmid eq_refl ltac:(done))
    as [rc ->].
  unfold total_delay. by rewrite delays_gap_exit.
Qed.

Lemma requested_restart_pause_is_two_witness :
  delays (gap (EvExit 1) 2) = [2] /\ total_delay (gap (EvExit 1) 2) = 2.
Proof.
  apply (requested_restart_pause_is_two w_B 2
           ((EvPrint <$> banner w_B) ++ [EvLaunch (launch0 w_B)])
           (gap (EvExit 1) 2)
           [EvExit 1; EvPrint (msg_exited 1)]
           (launch0 w_B)).
  - reflexivity.
  - reflexivity.
Defined.

(** ** The restart counter and the log *)

(** The counter against the launches, at any moment of a run. *)
Lemma counter_inv (w : world) n o st tr :
  run w n = (o, st, tr) ->
  Z.of_nat (length (launches tr)) <= restart_count st
    <= Z.of_nat (length (launches tr)) + 1.
Proof.
  revert o st tr. induction n as [|n IH]; intros o st tr H.
  - rewrite run_0 in H. injection H as <- <- <-. cbn. lia.
  - destruct (run w n) as [[o0 st0] tr0] eqn:Hn.
    assert (o0 = Looping \/ o0 <> Looping) as [->|Ho0] by (destruct o0; auto).
    2: { rewrite (run_S_over _ _ _ _ _ Hn Ho0) in H. injection H as <- <- <-.
         by eapply IH. }
    destruct (looping_inv _ _ _ _ Hn) as (Hrc & _ & _ & _ & _ & Hl).
    destruct (run_S_looping _ _ _ _ Hn) as (r & st' & evs & HS & Ht & Hrc' & _).
    rewrite HS in H. injection H as <- <- <-.
    rewrite launches_app, length_app, Hl, length_replicate.
    destruct Ht as [|r tail He].
    + cbn. lia.
    + rewrite launches_app, launches_pause, launches_launch.
      rewrite (ending_no_launch _ _ _ _ He). cbn. lia.
Qed.

(** X8. The restart counter counts the launches.  While the loop is running
    it equals the number of children launched so far; once the process has
    ended it is that number, or one more when Ctrl+C arrived during the pause
    before a launch. *)
Theorem counter_counts_launches (w : world) (n : nat) :
  Z.of_nat (length (launches (trace_of w n))) <= restart_count (state_of w n)
    <= Z.of_nat (length (launches (trace_of w n))) + 1 /\
  (outcome_of w n = Looping ->
     restart_count (state_of w n) = Z.of_nat (length (launches (trace_of w n))) /\
     restart_count (state_of w n) = Z.of_nat n).
Proof.
  unfold trace_of, state_of, outcome_of.
  destruct (run w n) as [[o st] tr] eqn:Hn. cbn [fst snd]. split.
  - by eapply counter_inv.
  - intros ->. destruct (looping_inv _ _ _ _ Hn) as (Hrc & _ & _ & _ & _ & Hl).
    rewrite Hl, length_replicate. done.
Qed.

Lemma counter_counts_launches_witness :
  restart_count (state_of w_forever 6) =
    Z.of_nat (length (launches (trace_of w_forever 6))) /\
  restart_count (state_of w_forever 6) = Z.of_nat 6.
Proof.
  apply (counter_counts_launches w_forever 6). reflexivity.
Defined.

(** X9. The restart counter is never reset and never decreases, and every
    turn of the loop adds exactly one to it, also a turn that ends in a launch
    fault or in a Ctrl+C. *)
Theorem counter_steps_by_one (w : world) (n m : nat) :
  (n <= m)%nat ->
  restart_count (state_of w n) <= restart_count (state_of w m) /\
  (outcome_of w n = Looping ->
     restart_count (state_of w (S n)) = restart_count (state_of w n) + 1).
Proof.
  assert (forall k, restart_count (state_of w k) <= restart_count (state_of w (S k)) /\
            (outcome_of w k = Looping ->
             restart_count (state_of w (S k)) = restart_count (state_of w k) + 1))
    as Hstep.
  { intros k. unfold state_of, outcome_of.
    destruct (run w k) as [[o st] tr] eqn:Hk. cbn [fst snd].
    assert (o = Looping \/ o <> Looping) as [->|Ho] by (destruct o; auto).
    - destruct (run_S_looping _ _ _ _ Hk) as (r & st' & evs & -> & _ & Hrc & _).
      cbn [fst snd]. split; [lia|done].
    - rewrite (run_S_over _ _ _ _ _ Hk Ho). cbn [fst snd]. split; [lia|done]. }
  intros Hle. split; [|apply Hstep].
  induction Hle as [|m Hle IH]; [lia|]. destruct (Hstep m) as [? _]. lia.
Qed.

Lemma counter_steps_by_one_witness :
  restart_count (state_of w_fault_ctrl_c 0) <= restart_count (state_of w_fault_ctrl_c 3) /\
  (outcome_of w_fault_ctrl_c 0 = Looping ->
     restart_count (state_of w_fault_ctrl_c 1) =
     restart_count (state_of w_fault_ctrl_c 0) + 1).
Proof. apply (counter_steps_by_one w_fault_ctrl_c 0 3). lia. Defined.

(** X10. Every turn of the loop after the first begins with the three lines
    of the restart notice, and the number in it is the number of the launch
    that is to follow: the first restart is announced as restart #2. *)
Theorem restart_notice_numbers_the_launch (w : world) (n : nat) :
  outcome_of w n = Looping -> (1 <= n)%nat ->
  exists rest,
    trace_of w (S n) =
      trace_of w n ++
      [EvPrint (nl +:+ rule);
       EvPrint ("🔄 RESTARTING BOT (restart #" +:+ pretty (Z.of_nat n + 1) +:+ ")");
       EvPrint (rule +:+ nl)] ++ rest.
Proof.
  unfold outcome_of, trace_of. destruct (run w n) as [[o st] tr] eqn:Hn.
  cbn [fst snd]. intros -> Hle.
  destruct (looping_inv _ _ _ _ Hn) as (Hrc & _).
  destruct (run_S_looping _ _ _ _ Hn) as (r & st' & evs & -> & Ht & _).
  cbn [snd]. rewrite <- Hrc.
  change [EvPrint (nl +:+ rule);
          EvPrint ("🔄 RESTARTING BOT (restart #" +:+ pretty (restart_count st + 1) +:+ ")");
          EvPrint (rule +:+ nl)]
    with (notice (restart_count st + 1)).
  destruct Ht as [_ _|r tail He].
  - by eexists.
  - unfold pause. destruct (Z.gtb_spec (restart_count st + 1) 1); [|lia].
    eexists. by rewrite <- app_assoc.
Qed.

Lemma restart_notice_numbers_the_launch_witness :
  exists rest,
    trace_of w_B 2 =
      trace_of w_B 1 ++
      [EvPrint (nl +:+ rule);
       EvPrint ("🔄 RESTARTING BOT (restart #" +:+ pretty (Z.of_nat 1 + 1) +:+ ")");
       EvPrint (rule +:+ nl)] ++ rest.
Proof.
  apply (restart_notice_numbers_the_launch w_B 1).
  - reflexivity.
  - lia.
Defined.

(** A turn reports its verdict before anything else can happen. *)
Lemma turn_reports (w : world) st r evs m x suf :
  turn w st r evs -> evs = m ++ x :: suf -> is_verdict x = true ->
  exists suf', suf = report x ++ suf'.
Proof.
  intros Ht Hevs Hx. destruct Ht as [Hk Hrc|r tail He].
  - assert (x ∈ notice (restart_count st + 1) ++ [EvInterrupt; EvPrint msg_ctrl_c])
      as Hin by (rewrite Hevs, elem_of_app, elem_of_cons; auto).
    unfold notice in Hin. rewrite elem_of_app, !elem_of_cons, !elem_of_nil in Hin.
    destruct_or!; by subst.
  - assert (forall y t, tail = y :: t ->
              Forall (fun e => is_verdict e = false) t ->
              x = y /\ suf = t) as Hsplit.
    { intros y t -> Ht.
      replace (pause (restart_count st + 1) ++ EvLaunch (the_launch w st) :: y :: t)
        with ((pause (restart_count st + 1) ++ [EvLaunch (the_launch w st)]) ++ y :: t)
        in Hevs by (by rewrite <- app_assoc).
      eapply only_split in Hevs as (_ & ? & ?); [done| |done|done].
      apply Forall_app. split; [apply pause_no_verdict|by repeat constructor]. }
    destruct He;
      (destruct (Hsplit _ _ eq_refl) as [-> ->]; [by repeat constructor|]);
      try (cbn in Hx; congruence); cbn [report].
    + by eexists.
    + by eexists.
    + destruct (Z.eqb_spec c 0); [done|]. by eexists.
    + destruct (Z.eqb_spec c 0); [done|]. by eexists.
    + by eexists.
    + by eexists.
Qed.

(** X11. Every verdict on a child is reported at once, whatever comes next:
    exit status 0 is followed directly by the clean-exit line, any other exit
    status by the line that names the status, and a launch fault by the error
    line with the description of the fault and the retry line. *)
Theorem verdict_is_reported (w : world) (n : nat) (pre suf : list event) (x : event) :
  trace_of w n = pre ++ x :: suf ->
  is_verdict x = true ->
  exists suf', suf = report x ++ suf'.
Proof.
  intros H Hx. revert pre suf H. induction n as [|n IH]; intros pre suf H.
  - assert (x ∈ EvPrint <$> banner w) as Hin
      by (change (EvPrint <$> banner w) with (trace_of w 0); rewrite H;
          rewrite elem_of_app, elem_of_cons; auto).
    apply list_elem_of_fmap in Hin as (? & -> & _). done.
  - destruct (run w n) as [[o0 st0] tr0] eqn:Hn.
    assert (trace_of w n = tr0) as Htr0 by (unfold trace_of; by rewrite Hn).
    assert (o0 = Looping \/ o0 <> Looping) as [->|Ho0] by (destruct o0; auto).
    2: { unfold trace_of in H. rewrite (run_S_over _ _ _ _ _ Hn Ho0) in H.
         eapply IH. rewrite Htr0. exact H. }
    destruct (run_S_looping _ _ _ _ Hn) as (r & st' & evs & HS & Ht & _).
    unfold trace_of in H. rewrite HS in H. cbn [snd] in H.
    apply app_eq_app_cons in H as [(m & Hm & ->)|(m & -> & Hm)].
    + rewrite Htr0 in IH. destruct (IH _ _ Hm) as [suf' ->].
      exists (suf' ++ evs). by rewrite <- app_assoc.
    + by eapply turn_reports.
Qed.

Lemma verdict_is_reported_witness :
  exists suf',
    [EvPrint (msg_error no_interpreter); EvPrint msg_retrying; EvInterrupt]
    = report (EvFault no_interpreter) ++ suf'.
Proof.
  apply (verdict_is_reported w_fault_ctrl_c 1
           ((EvPrint <$> banner w_fault_ctrl_c) ++ [EvLaunch (launch0 w_fault_ctrl_c)])
           _ (EvFault no_interpreter)).
  - reflexivity.
  - reflexivity.
Defined.

(** ** What the children inherit *)

(** X12. The children inherit the environment the script was started in:
    apart from the marker, every variable has in every launch the value, or
    the absence, it had in [os.environ] when the script started. *)
Theorem children_inherit_environment
    (w : world) (n : nat) (l : launch) (name : string) :
  l ∈ launches (trace_of w n) ->
  name <> "BOT_AUTO_RESTART" ->
  launch_env l !! name = os_environ w 0 !! name.
Proof.
  intros ->%launches_same Hname. cbn [launch_env launch0].
  rewrite overlay_eq. by apply lookup_insert_ne.
Qed.

Lemma children_inherit_environment_witness :
  launch_env (launch0 w_env) !! "HOME" = os_environ w_env 0 !! "HOME".
Proof.
  apply (children_inherit_environment w_env 2 (launch0 w_env) "HOME").
  - apply list_elem_of_lookup. exists 1%nat. reflexivity.
  - discriminate.
Defined.
